(** * alot/db.py: write queue, flush, search workers and thread views

    A shallow embedding of [alot/db.py].  The notmuch index is an external
    collaborator: it is represented by a record [Index] that holds the tag
    store, the answers the engine gives to the calls that can fail, and the
    log of every call made to it.  Python objects that are shared and
    mutated ([DBManager], [Thread]) are threaded through the functions as
    explicit state; a raised exception is a [Raise] result next to the
    state reached when it was raised. *)

From Stdlib Require Import ZArith.
From stdpp Require Import base gmap strings list sorting.

Set Warnings "-clear-no-such-hyp".

Open Scope string_scope.
Open Scope list_scope.
Open Scope nat_scope.

(** ** Exceptions and results *)

Inductive exception : Type :=
  | DatabaseError          (* db.py, line 14 *)
  | DatabaseROError        (* db.py, line 18: cannot write to read-only database *)
  | DatabaseLockedError    (* db.py, line 23: cannot write to locked index *)
  | NotmuchError           (* notmuch bindings *)
  | XapianError            (* notmuch bindings *)
  | StopIteration          (* [.next()] on an exhausted iterator *)
  | ValueError             (* [datetime.fromtimestamp]: year is out of range *)
  | KeyError               (* [d[k]] for a key that is not in the dict *)
  | AttributeError.        (* a method called on a value that has none such *)

(** [except NotmuchError]: [XapianError] is a subclass of it. *)
Definition is_NotmuchError (e : exception) : bool :=
  match e with
  | NotmuchError | XapianError => true
  | _ => false
  end.

Inductive result (A : Type) : Type :=
  | Return (a : A)
  | Raise (e : exception).
Arguments Return {A} a.
Arguments Raise {A} e.

(** ** Python values that the code passes around *)

(** The [tags] argument of the tagging methods is documented as a list of
    str, and [Thread.add_tags] passes a set on.  Both kinds of collection
    occur, and Python tells them apart. *)
Inductive pytags : Type :=
  | TagList (l : list string)
  | TagSet (s : gset string).

(** [set(tags)] *)
Definition set_of (tags : pytags) : gset string :=
  match tags with
  | TagList l => list_to_set l
  | TagSet s => s
  end.

(** [for tag in tags] *)
Definition iter_tags (tags : pytags) : list string :=
  match tags with
  | TagList l => l
  | TagSet s => elements s
  end.

(** [a == b] on collections of tags: a list and a set are never equal,
    whatever they hold; two lists are equal when they are the same
    sequence, two sets when they have the same members. *)
Definition py_eq (a b : pytags) : bool :=
  match a, b with
  | TagList l1, TagList l2 => bool_decide (l1 = l2)
  | TagSet s1, TagSet s2 => bool_decide (s1 = s2)
  | _, _ => false
  end.

(** [a != b] *)
Definition py_ne (a b : pytags) : bool := negb (py_eq a b).

(** [if s:] on a set *)
Definition set_truthy (s : gset string) : bool := negb (bool_decide (s = ∅)).

(** [tag.encode(DB_ENC)]: tags are byte strings already. *)
Definition DB_ENC : string := "utf-8".
Definition encode (tag : string) (enc : string) : string := tag.

(** ** The index engine (notmuch), as the code uses it *)

Inductive MODE : Type := READ_ONLY | READ_WRITE.

Inductive STATUS : Type :=
  | SUCCESS
  | OUT_OF_MEMORY
  | READ_ONLY_DATABASE
  | XAPIAN_EXCEPTION
  | UNBALANCED_ATOMIC.

Definition status_eqb (a b : STATUS) : bool :=
  match a, b with
  | SUCCESS, SUCCESS
  | OUT_OF_MEMORY, OUT_OF_MEMORY
  | READ_ONLY_DATABASE, READ_ONLY_DATABASE
  | XAPIAN_EXCEPTION, XAPIAN_EXCEPTION
  | UNBALANCED_ATOMIC, UNBALANCED_ATOMIC => true
  | _, _ => false
  end.

(** A message of the index with its replies ([get_replies] may be [None]). *)
#[warnings="-register-all"]
Inductive NMessage : Type :=
  | NMsg (mid : string) (replies : option (list NMessage)).

(** A thread of the index, with the accessors the code calls. *)
Record NThread : Type := {
  nt_thread_id : string;
  nt_total_messages : Z;
  nt_authors : string;
  nt_subject : string;
  nt_oldest_date : Z;
  nt_newest_date : Z;
  nt_tags : list string;
  nt_toplevel_messages : list NMessage
}.

(** Every call the code makes to the index. *)
Inductive event : Type :=
  | EvOpen (path : string) (mode : MODE) (ok : bool)
  | EvBeginAtomic (ok : bool)
  | EvEndAtomic (st : STATUS)
  | EvCreateQuery (querystring : string)
  | EvSearchMessages (querystring : string)
  | EvSearchThreads (querystring : string)
  | EvFreeze (msg : string)
  | EvAddTag (msg : string) (tag : string) (sync : bool)
  | EvRemoveTag (msg : string) (tag : string) (sync : bool)
  | EvRemoveAllTags (msg : string)
  | EvThaw (msg : string).

(** The index.  The three [idx_*] functions of the log are the answers of
    the engine to the calls that can fail; they may depend on everything
    that was done to the index before. *)
Record Index : Type := {
  idx_open_fails : MODE → list event → bool;
  idx_begin_fails : list event → bool;
  idx_end_status : list event → STATUS;
  idx_messages : gmap string (gset string) → string → list string;
  idx_threads : string → result (list NThread);
  idx_tags : gmap string (gset string);
  idx_snapshot : option (gmap string (gset string));
  idx_log : list event
}.

Definition with_log (ix : Index) (e : event) : Index :=
  {| idx_open_fails := idx_open_fails ix;
     idx_begin_fails := idx_begin_fails ix;
     idx_end_status := idx_end_status ix;
     idx_messages := idx_messages ix;
     idx_threads := idx_threads ix;
     idx_tags := idx_tags ix;
     idx_snapshot := idx_snapshot ix;
     idx_log := idx_log ix ++ [e] |}.

Definition with_tags (ix : Index) (tags : gmap string (gset string)) : Index :=
  {| idx_open_fails := idx_open_fails ix;
     idx_begin_fails := idx_begin_fails ix;
     idx_end_status := idx_end_status ix;
     idx_messages := idx_messages ix;
     idx_threads := idx_threads ix;
     idx_tags := tags;
     idx_snapshot := idx_snapshot ix;
     idx_log := idx_log ix |}.

Definition with_snapshot (ix : Index)
    (snap : option (gmap string (gset string))) : Index :=
  {| idx_open_fails := idx_open_fails ix;
     idx_begin_fails := idx_begin_fails ix;
     idx_end_status := idx_end_status ix;
     idx_messages := idx_messages ix;
     idx_threads := idx_threads ix;
     idx_tags := idx_tags ix;
     idx_snapshot := snap;
     idx_log := idx_log ix |}.

(** [Database(path=path, mode=mode)]: raises [NotmuchError] when the index
    cannot be opened in that mode. *)
Definition Database (path : string) (mode : MODE) (ix : Index)
    : result unit * Index :=
  if idx_open_fails ix mode (idx_log ix)
  then (Raise NotmuchError, with_log ix (EvOpen path mode false))
  else (Return tt, with_log ix (EvOpen path mode true)).

(** [db.begin_atomic()]: raises [XapianError] when the transaction cannot
    be started; otherwise the tag store is remembered. *)
Definition begin_atomic (db : Index) : result unit * Index :=
  if idx_begin_fails db (idx_log db)
  then (Raise XapianError, with_log db (EvBeginAtomic false))
  else (Return tt,
        with_log (with_snapshot db (Some (idx_tags db))) (EvBeginAtomic true)).

(** [db.end_atomic()]: returns the status of the commit; a transaction that
    is not committed leaves the tag store as it was when it began. *)
Definition end_atomic (db : Index) : STATUS * Index :=
  let st := idx_end_status db (idx_log db) in
  let tags :=
    if status_eqb st SUCCESS then idx_tags db
    else default (idx_tags db) (idx_snapshot db) in
  (st, with_log (with_snapshot (with_tags db tags) None) (EvEndAtomic st)).

(** [db.create_query(querystring)] *)
Definition create_query (querystring : string) (db : Index) : Index :=
  with_log db (EvCreateQuery querystring).

(** [query.search_messages()]: the identifiers of the matching messages. *)
Definition search_messages (querystring : string) (db : Index)
    : list string * Index :=
  (idx_messages db (idx_tags db) querystring,
   with_log db (EvSearchMessages querystring)).

Definition msg_freeze (msg : string) (db : Index) : Index :=
  with_log db (EvFreeze msg).

Definition msg_thaw (msg : string) (db : Index) : Index :=
  with_log db (EvThaw msg).

Definition msg_add_tag (msg tag : string) (sync : bool) (db : Index) : Index :=
  with_log (with_tags db (alter (λ s, s ∪ {[tag]}) msg (idx_tags db)))
           (EvAddTag msg tag sync).

Definition msg_remove_tag (msg tag : string) (sync : bool) (db : Index)
    : Index :=
  with_log (with_tags db (alter (λ s, s ∖ {[tag]}) msg (idx_tags db)))
           (EvRemoveTag msg tag sync).

Definition msg_remove_all_tags (msg : string) (db : Index) : Index :=
  with_log (with_tags db (alter (λ _, ∅) msg (idx_tags db)))
           (EvRemoveAllTags msg).

(** ** DBManager *)

(** A queued write command: [(cmd, querystring, tags, sync)] with [cmd] one
    of ['tag'], ['set'], ['untag']. *)
Definition WriteOp : Type := string * string * pytags * bool.

(** [settings.notmuchconfig], as far as this module reads it. *)
Record Config : Type := {
  maildir_synchronize_flags : bool
}.

Record DBManager : Type := {
  ro : bool;
  path : string;
  writequeue : list WriteOp;
  processes : list nat
}.

(** [DBManager.__init__] *)
Definition DBManager_init (path : string) (ro : bool) : DBManager :=
  {| ro := ro; path := path; writequeue := []; processes := [] |}.

Definition set_writequeue (self : DBManager) (q : list WriteOp) : DBManager :=
  {| ro := ro self; path := path self; writequeue := q;
     processes := processes self |}.

Definition set_processes (self : DBManager) (ps : list nat) : DBManager :=
  {| ro := ro self; path := path self; writequeue := writequeue self;
     processes := ps |}.

(** Lines 89-103: what [flush] does to one matching message. *)
Definition apply_to_message (cmd : string) (tags : pytags) (sync : bool)
    (db : Index) (msg : string) : Index :=
  let db := msg_freeze msg db in
  let db :=
    if String.eqb cmd "tag"
    then foldl (λ d tag, msg_add_tag msg (encode tag DB_ENC) sync d)
               db (iter_tags tags)
    else db in
  let db :=
    if String.eqb cmd "set"
    then foldl (λ d tag, msg_add_tag msg (encode tag DB_ENC) sync d)
               (msg_remove_all_tags msg db) (iter_tags tags)
    else if String.eqb cmd "untag"
    then foldl (λ d tag, msg_remove_tag msg (encode tag DB_ENC) sync d)
               db (iter_tags tags)
    else db in
  msg_thaw msg db.

(** Lines 87-103: the body of one transaction. *)
Definition apply_item (item : WriteOp) (db : Index) : Index :=
  let '(cmd, querystring, tags, sync) := item in
  let db := create_query querystring db in
  let '(msgs, db) := search_messages querystring db in
  foldl (apply_to_message cmd tags sync) db msgs.

(** Lines 80-107: [while self.writequeue: ...].  The loop need not end, so
    it is given fuel: [None] is a loop still running when the fuel is used
    up.  The queue of the result is [self.writequeue] when the loop is
    left, normally or by an exception. *)
Fixpoint flush_loop (fuel : nat) (queue : list WriteOp) (db : Index)
    : option (result unit * list WriteOp * Index) :=
  match fuel with
  | O => None
  | S fuel =>
      match queue with
      | [] => Some (Return tt, [], db)
      | current_item :: queue =>                           (* popleft *)
          match begin_atomic db with
          | (Raise XapianError, db) => Some (Raise DatabaseError, queue, db)
          | (Raise e, db) => Some (Raise e, queue, db)
          | (Return _, db) =>
              let db := apply_item current_item db in
              let '(st, db) := end_atomic db in
              if negb (status_eqb st SUCCESS)
              then flush_loop fuel (current_item :: queue) db  (* appendleft *)
              else flush_loop fuel queue db
          end
      end
  end.

(** [DBManager.flush], lines 59-107. *)
Definition flush (fuel : nat) (self : DBManager) (ix : Index)
    : option (result unit * DBManager * Index) :=
  if ro self then Some (Raise DatabaseROError, self, ix)
  else
    match writequeue self with
    | [] => Some (Return tt, self, ix)
    | _ :: _ =>
        match Database (path self) READ_WRITE ix with
        | (Raise e, ix) =>
            if is_NotmuchError e
            then Some (Raise DatabaseLockedError, self, ix)
            else Some (Raise e, self, ix)
        | (Return _, db) =>
            match flush_loop fuel (writequeue self) db with
            | None => None
            | Some (r, queue, db) => Some (r, set_writequeue self queue, db)
            end
        end
    end.

(** [DBManager.kill_search_processes] is defined with the processes below. *)

(** [DBManager.tag], lines 118-143. *)
Definition tag (config : Config) (querystring : string) (tags : pytags)
    (remove_rest : bool) (self : DBManager) : result unit * DBManager :=
  if ro self then (Raise DatabaseROError, self)
  else
    let sync_maildir_flags := maildir_synchronize_flags config in
    if remove_rest
    then (Return tt,
          set_writequeue self
            (writequeue self ++ [("set", querystring, tags, sync_maildir_flags)]))
    else (Return tt,
          set_writequeue self
            (writequeue self ++ [("tag", querystring, tags, sync_maildir_flags)])).

(** [DBManager.untag], lines 145-164. *)
Definition untag (config : Config) (querystring : string) (tags : pytags)
    (self : DBManager) : result unit * DBManager :=
  if ro self then (Raise DatabaseROError, self)
  else
    let sync_maildir_flags := maildir_synchronize_flags config in
    (Return tt,
     set_writequeue self
       (writequeue self ++ [("untag", querystring, tags, sync_maildir_flags)])).

(** [DBManager.query], lines 239-249: opens the index read-only and creates
    the query; a failure to open propagates. *)
Definition query (querystring : string) (self : DBManager) (ix : Index)
    : result string * Index :=
  match Database (path self) READ_ONLY ix with
  | (Raise e, ix) => (Raise e, ix)
  | (Return _, db) => (Return querystring, create_query querystring db)
  end.

(** [query.search_threads()], for a query made by [query]. *)
Definition search_threads (q : string) (ix : Index)
    : result (list NThread) * Index :=
  (idx_threads ix q, with_log ix (EvSearchThreads q)).

(** [iterator.next()] *)
Definition next {A : Type} (l : list A) : result A :=
  match l with
  | [] => Raise StopIteration
  | a :: _ => Return a
  end.

(** ** Thread *)

(** Modelled from the spec: the [Message] wrapper class lives in
    [alot/message.py], which is not part of the sources.  The spec
    identifies a wrapper by the identifier of the message it wraps
    ("scans the mapping's keys for one whose identifier matches"), so a
    wrapper is that identifier. *)
Record Message : Type := {
  get_message_id : string
}.

Global Instance Message_eq_dec : EqDecision Message.
Proof. solve_decision. Defined.

(** [datetime.fromtimestamp(ts)]: raises [ValueError] when the year falls
    outside 1..9999. *)
Definition fromtimestamp (ts : Z) : result Z :=
  if bool_decide (-62135596800 ≤ ts ≤ 253402300799)%Z
  then Return ts else Raise ValueError.

(** A dict from [Message] to the list of its replies, in insertion order. *)
Definition msgdict : Type := list (Message * list Message).

(** While the mapping is built, its values are list objects that Python
    tells apart: [acc[M] = []] puts a new list under the key, and
    [acc[M].append(x)] first takes the list that is under the key, then
    computes [x], then appends to the list it took, whether or not that
    list is still the one under the key.  So each list carries a number
    of its own, and the dict under construction comes with the number of
    the next list.  A list that is under no key any more is not seen
    again and is not kept. *)
Definition building : Type := list (Message * (nat * list Message)).

(** [acc[M] = []], the new list being number [L]. *)
Fixpoint dict_set (acc : building) (M : Message) (L : nat) : building :=
  match acc with
  | [] => [(M, (L, []))]
  | (K, v) :: acc =>
      if decide (K = M) then (K, (L, [])) :: acc
      else (K, v) :: dict_set acc M L
  end.

(** [acc[M]]: the list under the key, [None] when the key is missing. *)
Fixpoint dict_get (acc : building) (M : Message) : option nat :=
  match acc with
  | [] => None
  | (K, (L, _)) :: acc => if decide (K = M) then Some L else dict_get acc M
  end.

(** [L.append(x)] for the list number [L], as far as the dict shows it. *)
Fixpoint list_append (acc : building) (L : nat) (x : Message) : building :=
  match acc with
  | [] => []
  | (K, (L', w)) :: acc =>
      if decide (L' = L) then (K, (L', w ++ [x])) :: acc
      else (K, (L', w)) :: list_append acc L x
  end.

(** The dict that was built, its lists by their contents. *)
Definition built (acc : building) : msgdict :=
  (λ e, (e.1, e.2.2)) <$> acc.

Record Thread : Type := {
  _id : string;
  _total_messages : Z;
  _authors : string;
  _subject : string;
  _oldest_date : option Z;
  _newest_date : option Z;
  _tags : gset string;
  _messages : msgdict;
  _toplevel_messages : list Message
}.

Definition set_tags_field (self : Thread) (tags : gset string) : Thread :=
  {| _id := _id self; _total_messages := _total_messages self;
     _authors := _authors self; _subject := _subject self;
     _oldest_date := _oldest_date self; _newest_date := _newest_date self;
     _tags := tags;
     _messages := _messages self;
     _toplevel_messages := _toplevel_messages self |}.

Definition set_tree (self : Thread) (messages : msgdict)
    (toplevel : list Message) : Thread :=
  {| _id := _id self; _total_messages := _total_messages self;
     _authors := _authors self; _subject := _subject self;
     _oldest_date := _oldest_date self; _newest_date := _newest_date self;
     _tags := _tags self;
     _messages := messages;
     _toplevel_messages := toplevel |}.

(** Lines 281-289: a timestamp out of range gives [None]. *)
Definition date_or_None (ts : Z) : option Z :=
  match fromtimestamp ts with
  | Return d => Some d
  | Raise _ => None
  end.

(** Lines 276-293 of [Thread.refresh], once [thread] is at hand. *)
Definition refresh_from (thread : NThread) (id : string) : Thread :=
  {| _id := id;
     _total_messages := nt_total_messages thread;
     _authors := nt_authors thread;
     _subject := nt_subject thread;
     _oldest_date := date_or_None (nt_oldest_date thread);
     _newest_date := date_or_None (nt_newest_date thread);
     _tags := list_to_set (nt_tags thread);
     _messages := [];
     _toplevel_messages := [] |}.

(** [Thread.refresh], lines 271-293.  Without an argument the thread is
    looked up again; a failed lookup propagates and leaves [self] as it
    was. *)
Definition refresh (thread : option NThread) (self : Thread)
    (dbman : DBManager) (ix : Index) : result unit * Thread * Index :=
  match thread with
  | Some thread => (Return tt, refresh_from thread (_id self), ix)
  | None =>
      match query ("thread:" +:+ _id self) dbman ix with
      | (Raise e, ix) => (Raise e, self, ix)
      | (Return q, ix) =>
          match search_threads q ix with
          | (Raise e, ix) => (Raise e, self, ix)
          | (Return threads, ix) =>
              match next threads with
              | Raise e => (Raise e, self, ix)
              | Return thread =>
                  (Return tt, refresh_from thread (_id self), ix)
              end
          end
      end
  end.

(** [Thread.__init__], lines 260-269. *)
Definition Thread_init (dbman : DBManager) (thread : NThread) : Thread :=
  refresh_from thread (nt_thread_id thread).

(** [Thread.get_tags] is the sorted list of [_tags]; the claims use the set. *)

(** [Thread.add_tags], lines 312-326. *)
Definition add_tags (config : Config) (tags : pytags) (self : Thread)
    (dbman : DBManager) : result unit * Thread * DBManager :=
  let newtags := set_of tags ∖ _tags self in
  if set_truthy newtags then
    match tag config ("thread:" +:+ _id self) (TagSet newtags) false dbman with
    | (Raise e, dbman) => (Raise e, self, dbman)
    | (Return _, dbman) =>
        (Return tt, set_tags_field self (_tags self ∪ newtags), dbman)
    end
  else (Return tt, self, dbman).

(** [Thread.remove_tags], lines 328-341. *)
Definition remove_tags (config : Config) (tags : pytags) (self : Thread)
    (dbman : DBManager) : result unit * Thread * DBManager :=
  let rmtags := set_of tags ∩ _tags self in
  if set_truthy rmtags then
    match untag config ("thread:" +:+ _id self) tags dbman with
    | (Raise e, dbman) => (Raise e, self, dbman)
    | (Return _, dbman) =>
        (Return tt, set_tags_field self (_tags self ∖ rmtags), dbman)
    end
  else (Return tt, self, dbman).

(** [Thread.set_tags], lines 343-356. *)
Definition set_tags (config : Config) (tags : pytags) (self : Thread)
    (dbman : DBManager) : result unit * Thread * DBManager :=
  if py_ne tags (TagSet (_tags self)) then
    match tag config ("thread:" +:+ _id self) tags true dbman with
    | (Raise e, dbman) => (Raise e, self, dbman)
    | (Return _, dbman) =>
        (Return tt, set_tags_field self (set_of tags), dbman)
    end
  else (Return tt, self, dbman).

(** [accumulate], lines 390-397: wraps [msg], enters it in [acc] with a new,
    empty list of children, then for every reply takes the list that is
    under the key, wraps the reply with all below it, and appends its
    wrapper to the list taken. *)
Fixpoint accumulate (acc : nat * building) (msg : NMessage)
    : result Message * (nat * building) :=
  match msg with
  | NMsg mid r =>
      let M := {| get_message_id := mid |} in
      let acc := (S acc.1, dict_set acc.2 M acc.1) in
      match r with
      | None => (Return M, acc)
      | Some r =>
          (fix replies (acc : nat * building) (r : list NMessage)
               : result Message * (nat * building) :=
             match r with
             | [] => (Return M, acc)
             | m :: r =>
                 match dict_get acc.2 M with
                 | None => (Raise KeyError, acc)
                 | Some L =>
                     match accumulate acc m with
                     | (Raise e, acc) => (Raise e, acc)
                     | (Return child, acc) =>
                         replies (acc.1, list_append acc.2 L child) r
                     end
                 end
             end) acc r
      end
  end.

(** Lines 400-402: the loop over the top-level messages. *)
Fixpoint accumulate_toplevel (acc : nat * building) (toplevel : list Message)
    (ms : list NMessage)
    : result unit * ((nat * building) * list Message) :=
  match ms with
  | [] => (Return tt, (acc, toplevel))
  | m :: ms =>
      match accumulate acc m with
      | (Raise e, acc) => (Raise e, (acc, toplevel))
      | (Return M, acc) => accumulate_toplevel acc (toplevel ++ [M]) ms
      end
  end.

(** [if not self._messages:] on a dict *)
Definition dict_empty (d : msgdict) : bool :=
  match d with [] => true | _ :: _ => false end.

(** [Thread.get_messages], lines 378-403. *)
Definition get_messages (self : Thread) (dbman : DBManager) (ix : Index)
    : result msgdict * Thread * Index :=
  if dict_empty (_messages self) then
    match query ("thread:" +:+ _id self) dbman ix with
    | (Raise e, ix) => (Raise e, self, ix)
    | (Return q, ix) =>
        match search_threads q ix with
        | (Raise e, ix) => (Raise e, self, ix)
        | (Return threads, ix) =>
            match next threads with
            | Raise e => (Raise e, self, ix)
            | Return thread =>
                let '(r, (acc, toplevel)) :=
                  accumulate_toplevel (0, []) (_toplevel_messages self)
                    (nt_toplevel_messages thread) in
                let self := set_tree self (built acc.2) toplevel in
                match r with
                | Raise e => (Raise e, self, ix)
                | Return _ => (Return (_messages self), self, ix)
                end
            end
        end
    end
  else (Return (_messages self), self, ix).

(** [Thread.get_toplevel_messages], lines 366-376. *)
Definition get_toplevel_messages (self : Thread) (dbman : DBManager)
    (ix : Index) : result (list Message) * Thread * Index :=
  if dict_empty (_messages self) then
    match get_messages self dbman ix with
    | (Raise e, self, ix) => (Raise e, self, ix)
    | (Return _, self, ix) => (Return (_toplevel_messages self), self, ix)
    end
  else (Return (_toplevel_messages self), self, ix).

(** [DBManager.get_thread], lines 180-186: the query is made before the
    [try]; whatever is raised inside the [try] gives [None]. *)
Definition get_thread (tid : string) (self : DBManager) (ix : Index)
    : result (option Thread) * Index :=
  match query ("thread:" +:+ tid) self ix with
  | (Raise e, ix) => (Raise e, ix)
  | (Return q, ix) =>
      match search_threads q ix with
      | (Raise _, ix) => (Return None, ix)
      | (Return threads, ix) =>
          match next threads with
          | Raise _ => (Return None, ix)
          | Return thread => (Return (Some (Thread_init self thread)), ix)
          end
      end
  end.

(** ** Search workers *)

(** What an iterable may yield and what may travel through a pipe. *)
Inductive pyval : Type :=
  | PyNone
  | PyInt (z : Z)
  | PyStr (s : string)
  | PyThread (t : NThread).

(** A one-way pipe ([multiprocessing.Pipe(False)]): the values sent and not
    yet received, and the number of handles on the sending end that are
    still open in some process.  The receiver meets the end of the stream
    when the buffer is empty and no such handle is left. *)
Record Pipe : Type := {
  pipe_buffer : list pyval;
  pipe_senders : nat
}.

Inductive pstate : Type :=
  | Running                 (* started, [run] has not returned *)
  | Exited                  (* [run] returned *)
  | Died (e : exception)    (* [run] was left by an exception *)
  | Terminated.             (* killed by [terminate] *)

(** A [FillPipeProcess], lines 28-38: what is left of [self.it], the pipe
    [self.pipe] it writes to, [self.fun], and what it has sent so far. *)
Record Process : Type := {
  proc_it : list pyval;
  proc_pipe : nat;
  proc_fun : pyval → result pyval;
  proc_state : pstate;
  proc_sent : list pyval
}.

(** The operating system: pipes and processes, named by their position. *)
Record OS : Type := {
  os_pipes : list Pipe;
  os_procs : list Process
}.

Definition pipe_send (v : pyval) (p : Pipe) : Pipe :=
  {| pipe_buffer := pipe_buffer p ++ [v]; pipe_senders := pipe_senders p |}.

Definition pipe_close_sender (p : Pipe) : Pipe :=
  {| pipe_buffer := pipe_buffer p; pipe_senders := pred (pipe_senders p) |}.

Definition pipe_open_sender (p : Pipe) : Pipe :=
  {| pipe_buffer := pipe_buffer p; pipe_senders := S (pipe_senders p) |}.

Definition update_pipe (i : nat) (f : Pipe → Pipe) (os : OS) : OS :=
  {| os_pipes := alter f i (os_pipes os); os_procs := os_procs os |}.

Definition update_proc (pid : nat) (f : Process → Process) (os : OS) : OS :=
  {| os_pipes := os_pipes os; os_procs := alter f pid (os_procs os) |}.

(** One step of [FillPipeProcess.run], lines 35-38, in process [pid]:
    either one turn of the [for] loop, sending [self.fun(a)], or, when the
    iterable is exhausted, [self.pipe.close()] and the end of the process.
    [run] catches nothing: an exception of [self.fun(a)] ends the process
    on the spot, nothing is sent for [a] or after it, and the handles the
    process held are closed with it.  A process that is not running does
    nothing. *)
Definition run_step (pid : nat) (os : OS) : OS :=
  match os_procs os !! pid with
  | Some p =>
      match proc_state p with
      | Running =>
          match proc_it p with
          | a :: it =>
              match proc_fun p a with
              | Return v =>
                  update_pipe (proc_pipe p) (pipe_send v)
                    (update_proc pid
                       (λ p, {| proc_it := it; proc_pipe := proc_pipe p;
                                proc_fun := proc_fun p;
                                proc_state := Running;
                                proc_sent := proc_sent p ++ [v] |}) os)
              | Raise e =>
                  update_pipe (proc_pipe p) pipe_close_sender
                    (update_proc pid
                       (λ p, {| proc_it := proc_it p;
                                proc_pipe := proc_pipe p;
                                proc_fun := proc_fun p;
                                proc_state := Died e;
                                proc_sent := proc_sent p |}) os)
              end
          | [] =>
              update_pipe (proc_pipe p) pipe_close_sender
                (update_proc pid
                   (λ p, {| proc_it := []; proc_pipe := proc_pipe p;
                            proc_fun := proc_fun p; proc_state := Exited;
                            proc_sent := proc_sent p |}) os)
          end
      | _ => os
      end
  | None => os
  end.

(** [FillPipeProcess.run] from start to end: [n] steps. *)
Fixpoint run (n : nat) (pid : nat) (os : OS) : OS :=
  match n with
  | O => os
  | S n => run n pid (run_step pid os)
  end.

(** [p.terminate()]: a running process is killed, and the handles it held
    are closed with it; otherwise nothing happens. *)
Definition terminate (pid : nat) (os : OS) : OS :=
  match os_procs os !! pid with
  | Some p =>
      match proc_state p with
      | Running =>
          update_pipe (proc_pipe p) pipe_close_sender
            (update_proc pid
               (λ p, {| proc_it := proc_it p; proc_pipe := proc_pipe p;
                        proc_fun := proc_fun p; proc_state := Terminated;
                        proc_sent := proc_sent p |}) os)
      | _ => os
      end
  | None => os
  end.

(** [receiver.recv()]: the next value, [EOFError] at the end of the stream
    (or on a handle that names no pipe), or no answer yet. *)
Inductive received : Type :=
  | Received (v : pyval)
  | EOFError
  | Blocked.

Definition recv (receiver : nat) (os : OS) : received * OS :=
  match os_pipes os !! receiver with
  | Some p =>
      match pipe_buffer p with
      | v :: buf =>
          (Received v,
           update_pipe receiver
             (λ p, {| pipe_buffer := buf; pipe_senders := pipe_senders p |}) os)
      | [] =>
          match pipe_senders p with
          | O => (EOFError, os)
          | S _ => (Blocked, os)
          end
      end
  | None => (EOFError, os)
  end.

(** The consumer's loop: [recv] until it does not give a value; the values
    in the order received, and what ended the loop. *)
Fixpoint recv_all (fuel : nat) (receiver : nat) (os : OS)
    : list pyval * received * OS :=
  match fuel with
  | O => ([], Blocked, os)
  | S fuel =>
      match recv receiver os with
      | (Received v, os) =>
          let '(vs, last, os) := recv_all fuel receiver os in
          (v :: vs, last, os)
      | (r, os) => ([], r, os)
      end
  end.

(** [DBManager.async], lines 203-224.  [Pipe(False)] makes the pipe with
    its sending end open in the caller; [cbl()] is evaluated in the caller
    and what it raises propagates; [process.start()] gives the worker its
    own handle on the sending end; [sender.close()] closes the caller's.
    The result is the receiving end and the process. *)
Definition async (cbl : unit → result (list pyval))
    (fun_ : pyval → result pyval)
    (self : DBManager) (os : OS) : result (nat * nat) * DBManager * OS :=
  let receiver := length (os_pipes os) in
  let sender := receiver in
  let os := {| os_pipes := os_pipes os ++
                 [{| pipe_buffer := []; pipe_senders := 1 |}];
               os_procs := os_procs os |} in
  match cbl tt with
  | Raise e => (Raise e, self, os)
  | Return it =>
      let process := length (os_procs os) in
      let os := {| os_pipes := os_pipes os;
                   os_procs := os_procs os ++
                     [{| proc_it := it; proc_pipe := sender;
                         proc_fun := fun_; proc_state := Running;
                         proc_sent := [] |}] |} in
      let os := update_pipe sender pipe_open_sender os in     (* start *)
      let self := set_processes self (processes self ++ [process]) in
      let os := update_pipe sender pipe_close_sender os in    (* sender.close *)
      (Return (receiver, process), self, os)
  end.

(** [a.get_thread_id()]: the identifier of a thread; a value that is no
    thread has no such method. *)
Definition get_thread_id (a : pyval) : result pyval :=
  match a with
  | PyThread t => Return (PyStr (nt_thread_id t))
  | _ => Raise AttributeError
  end.

(** [DBManager.get_threads], lines 226-237. *)
Definition get_threads (querystring : string) (self : DBManager) (ix : Index)
    (os : OS) : result (nat * nat) * DBManager * Index * OS :=
  match query querystring self ix with
  | (Raise e, ix) => (Raise e, self, ix, os)
  | (Return q, ix) =>
      let '(threads, ix) := search_threads q ix in
      let cbl := λ _ : unit,
        match threads with
        | Return ts => Return (PyThread <$> ts)
        | Raise e => Raise e
        end in
      let '(r, self, os) := async cbl get_thread_id self os in
      (r, self, ix, os)
  end.

(** [DBManager.kill_search_processes], lines 109-116. *)
Definition kill_search_processes (self : DBManager) (os : OS)
    : DBManager * OS :=
  let os := foldl (λ os p, terminate p os) os (processes self) in
  (set_processes self [], os).

(** A worker and its consumer taking turns: [true] is a step of the
    worker, [false] a [recv] of the consumer.  The answers to the [recv]s,
    in order. *)
Fixpoint interleave (schedule : list bool) (pid receiver : nat) (os : OS)
    : list received * OS :=
  match schedule with
  | [] => ([], os)
  | true :: schedule => interleave schedule pid receiver (run_step pid os)
  | false :: schedule =>
      let '(r, os) := recv receiver os in
      let '(rs, os) := interleave schedule pid receiver os in
      (r :: rs, os)
  end.

(** The values among the answers to a run of [recv]s. *)
Fixpoint values (rs : list received) : list pyval :=
  match rs with
  | [] => []
  | Received v :: rs => v :: values rs
  | _ :: rs => values rs
  end.

(** What a worker sends for the items [it]: the values of [f], item by
    item, up to the first item for which [f] raises. *)
Fixpoint outputs (f : pyval → result pyval) (it : list pyval) : list pyval :=
  match it with
  | [] => []
  | a :: it =>
      match f a with
      | Return v => v :: outputs f it
      | Raise _ => []
      end
  end.

(** How a worker that is left alone ends. *)
Fixpoint ending (f : pyval → result pyval) (it : list pyval) : pstate :=
  match it with
  | [] => Exited
  | a :: it =>
      match f a with
      | Return _ => ending f it
      | Raise e => Died e
      end
  end.

(** The worker [pid] feeds the pipe [receiver] from what [it] yields,
    through [f], and the consumer has received [got] so far: what was
    received, what waits in the pipe and what is still to be sent make up
    the outputs of [f] over [it], in this order; the worker holds the
    only open sending end until it has ended. *)
Definition feeding (pid receiver : nat) (f : pyval → result pyval)
    (it got : list pyval) (os : OS) : Prop :=
  ∃ p pp,
    os_procs os !! pid = Some p ∧
    proc_pipe p = receiver ∧
    proc_fun p = f ∧
    os_pipes os !! receiver = Some pp ∧
    got ++ pipe_buffer pp ++ outputs f (proc_it p) = outputs f it ∧
    match proc_state p with
    | Running => pipe_senders pp = 1
    | Exited => proc_it p = [] ∧ pipe_senders pp = 0
    | Died _ => outputs f (proc_it p) = [] ∧ pipe_senders pp = 0
    | Terminated => False
    end.

(** ** The manager and its surroundings as one system *)

Record System : Type := {
  sys_dbman : DBManager;
  sys_index : Index;
  sys_os : OS
}.

(** What can happen to the system: a call of a method of the manager or
    of a thread that holds the manager, a step of a worker (its last step
    is its completion), or a [recv] of a consumer. *)
Inductive action : Type :=
  | CallFlush (fuel : nat)
  | CallTag (config : Config) (querystring : string) (tags : pytags)
            (remove_rest : bool)
  | CallUntag (config : Config) (querystring : string) (tags : pytags)
  | CallQuery (querystring : string)
  | CallGetThread (tid : string)
  | CallAsync (cbl : unit → result (list pyval))
              (fun_ : pyval → result pyval)
  | CallGetThreads (querystring : string)
  | CallKillSearchProcesses
  | CallAddTags (config : Config) (tags : pytags) (thread : Thread)
  | CallRemoveTags (config : Config) (tags : pytags) (thread : Thread)
  | CallSetTags (config : Config) (tags : pytags) (thread : Thread)
  | CallRefresh (thread : Thread)
  | CallGetMessages (thread : Thread)
  | WorkerStep (pid : nat)
  | ConsumerRecv (receiver : nat).

Definition step (a : action) (s : System) : option System :=
  let '{| sys_dbman := m; sys_index := ix; sys_os := os |} := s in
  match a with
  | CallFlush fuel =>
      match flush fuel m ix with
      | Some (_, m, ix) =>
          Some {| sys_dbman := m; sys_index := ix; sys_os := os |}
      | None => None
      end
  | CallTag config q tags remove_rest =>
      let '(_, m) := tag config q tags remove_rest m in
      Some {| sys_dbman := m; sys_index := ix; sys_os := os |}
  | CallUntag config q tags =>
      let '(_, m) := untag config q tags m in
      Some {| sys_dbman := m; sys_index := ix; sys_os := os |}
  | CallQuery q =>
      let '(_, ix) := query q m ix in
      Some {| sys_dbman := m; sys_index := ix; sys_os := os |}
  | CallGetThread tid =>
      let '(_, ix) := get_thread tid m ix in
      Some {| sys_dbman := m; sys_index := ix; sys_os := os |}
  | CallAsync cbl fun_ =>
      let '(_, m, os) := async cbl fun_ m os in
      Some {| sys_dbman := m; sys_index := ix; sys_os := os |}
  | CallGetThreads q =>
      let '(_, m, ix, os) := get_threads q m ix os in
      Some {| sys_dbman := m; sys_index := ix; sys_os := os |}
  | CallKillSearchProcesses =>
      let '(m, os) := kill_search_processes m os in
      Some {| sys_dbman := m; sys_index := ix; sys_os := os |}
  | CallAddTags config tags t =>
      let '(_, _, m) := add_tags config tags t m in
      Some {| sys_dbman := m; sys_index := ix; sys_os := os |}
  | CallRemoveTags config tags t =>
      let '(_, _, m) := remove_tags config tags t m in
      Some {| sys_dbman := m; sys_index := ix; sys_os := os |}
  | CallSetTags config tags t =>
      let '(_, _, m) := set_tags config tags t m in
      Some {| sys_dbman := m; sys_index := ix; sys_os := os |}
  | CallRefresh t =>
      let '(_, _, ix) := refresh None t m ix in
      Some {| sys_dbman := m; sys_index := ix; sys_os := os |}
  | CallGetMessages t =>
      let '(_, _, ix) := get_messages t m ix in
      Some {| sys_dbman := m; sys_index := ix; sys_os := os |}
  | WorkerStep pid =>
      Some {| sys_dbman := m; sys_index := ix; sys_os := run_step pid os |}
  | ConsumerRecv receiver =>
      let '(_, os) := recv receiver os in
      Some {| sys_dbman := m; sys_index := ix; sys_os := os |}
  end.

(** Whether an action starts a worker: a call of [async], directly or
    through [get_threads], whose producer does not raise. *)
Definition spawns (a : action) (s : System) : bool :=
  match a with
  | CallAsync cbl _ =>
      match cbl tt with Return _ => true | Raise _ => false end
  | CallGetThreads q =>
      match query q (sys_dbman s) (sys_index s) with
      | (Return q, ix) =>
          match search_threads q ix with
          | (Return _, _) => true
          | (Raise _, _) => false
          end
      | (Raise _, _) => false
      end
  | _ => false
  end.

Definition is_kill (a : action) : bool :=
  match a with CallKillSearchProcesses => true | _ => false end.

(** The state of a process, if there is such a process. *)
Definition state_of (pid : nat) (os : OS) : option pstate :=
  proc_state <$> os_procs os !! pid.

(** The state of a process after [terminate], from its state before. *)
Definition terminated (st : option pstate) : option pstate :=
  match st with
  | Some Running => Some Terminated
  | st => st
  end.

(** ** What one queued command is to do, in the words of the spec *)

(** Section 4.1: "for [Tag], add each tag; for [SetTags], clear all tags
    then add each given tag; for [Untag], remove each given tag".  This is
    the tag set a matching message is to end with. *)
Definition tags_after (cmd : string) (tags : pytags) (old : gset string)
    : gset string :=
  if String.eqb cmd "tag" then old ∪ list_to_set (iter_tags tags)
  else if String.eqb cmd "set" then list_to_set (iter_tags tags)
  else if String.eqb cmd "untag" then old ∖ list_to_set (iter_tags tags)
  else old.

(** The tag store after a command is applied to the messages [msgs]. *)
Definition store_after (item : WriteOp) (msgs : list string)
    (store : gmap string (gset string)) : gmap string (gset string) :=
  let '(cmd, _, tags, _) := item in
  foldl (λ st msg, alter (tags_after cmd tags) msg st) store msgs.

(** The calls made for one matching message: the mutation between a
    freeze and a thaw. *)
Definition message_events (cmd : string) (tags : pytags) (sync : bool)
    (msg : string) : list event :=
  [EvFreeze msg] ++
  (if String.eqb cmd "tag"
   then (λ t, EvAddTag msg t sync) <$> iter_tags tags
   else if String.eqb cmd "set"
   then EvRemoveAllTags msg :: ((λ t, EvAddTag msg t sync) <$> iter_tags tags)
   else if String.eqb cmd "untag"
   then (λ t, EvRemoveTag msg t sync) <$> iter_tags tags
   else []) ++
  [EvThaw msg].

(** The calls made for one command, between the begin and the end of its
    transaction. *)
Definition item_events (item : WriteOp) (msgs : list string) : list event :=
  let '(cmd, querystring, tags, sync) := item in
  [EvCreateQuery querystring; EvSearchMessages querystring] ++
  mjoin (message_events cmd tags sync <$> msgs).

(** One command in a transaction of its own that commits. *)
Definition transaction (item : WriteOp) (db : Index) : Index :=
  (end_atomic (apply_item item (begin_atomic db).2)).2.

(** The messages a command selects when its transaction starts at [db]. *)
Definition matching (item : WriteOp) (db : Index) : list string :=
  idx_messages db (idx_tags db) item.1.1.2.

(** The log of a committed transaction. *)
Definition transaction_events (item : WriteOp) (db : Index) : list event :=
  [EvBeginAtomic true] ++ item_events item (matching item db) ++
  [EvEndAtomic SUCCESS].

(** The part of a log that was added since it was [before]. *)
Definition new_events (before after : Index) : list event :=
  drop (length (idx_log before)) (idx_log after).

(** Two states of the same index: the engine answers alike. *)
Definition same_engine (a b : Index) : Prop :=
  idx_open_fails a = idx_open_fails b ∧
  idx_begin_fails a = idx_begin_fails b ∧
  idx_end_status a = idx_end_status b ∧
  idx_messages a = idx_messages b ∧
  idx_threads a = idx_threads b.

(** What a caller and the index see of a [flush]: the result, the queue
    left behind and the calls made. *)
Definition outcome (run : option (result unit * DBManager * Index))
    : option (result unit * list WriteOp * list event) :=
  match run with
  | Some (r, self, ix) => Some (r, writequeue self, idx_log ix)
  | None => None
  end.

(** ** Scenarios *)

Definition is_end (e : event) : bool :=
  match e with EvEndAtomic _ => true | _ => false end.

(** How many commits were attempted so far. *)
Definition commits_so_far (log : list event) : nat :=
  length (filter is_end log).

Definition demo_store : gmap string (gset string) :=
  {[ "m1" := {[ "inbox" ]}; "m2" := {[ "inbox"; "unread" ]} ]}.

Definition demo_messages (store : gmap string (gset string)) (q : string)
    : list string :=
  if String.eqb q "thread:1" then ["m1"; "m2"] else [].

Definition demo_thread : NThread :=
  {| nt_thread_id := "1";
     nt_total_messages := 2;
     nt_authors := "alice, bob";
     nt_subject := "hello";
     nt_oldest_date := 1300000000;
     nt_newest_date := 1300000600;
     nt_tags := ["x"; "y"];
     nt_toplevel_messages := [NMsg "m1" (Some [NMsg "m2" None])] |}.

Definition demo_threads (q : string) : result (list NThread) :=
  if String.eqb q "thread:1" then Return [demo_thread]
  else if String.eqb q "thread:broken" then Raise XapianError
  else Return [].

Definition demo_index (open_fails : MODE → list event → bool)
    (begin_fails : list event → bool) (end_status : list event → STATUS)
    : Index :=
  {| idx_open_fails := open_fails;
     idx_begin_fails := begin_fails;
     idx_end_status := end_status;
     idx_messages := demo_messages;
     idx_threads := demo_threads;
     idx_tags := demo_store;
     idx_snapshot := None;
     idx_log := [] |}.

(** An index on which everything succeeds. *)
Definition index_ok : Index :=
  demo_index (λ _ _, false) (λ _, false) (λ _, SUCCESS).

(** An index whose second commit fails, and no other. *)
Definition index_second_commit_fails : Index :=
  demo_index (λ _ _, false) (λ _, false)
    (λ log, if Nat.eqb (commits_so_far log) 1 then XAPIAN_EXCEPTION
            else SUCCESS).

(** An index on which every commit but the first fails. *)
Definition index_commits_once : Index :=
  demo_index (λ _ _, false) (λ _, false)
    (λ log, if Nat.eqb (commits_so_far log) 0 then SUCCESS
            else XAPIAN_EXCEPTION).

(** An index locked by another writer: it opens for reading only. *)
Definition index_locked : Index :=
  demo_index (λ mode _, match mode with READ_WRITE => true | _ => false end)
    (λ _, false) (λ _, SUCCESS).

(** An index that cannot be opened at all. *)
Definition index_unreadable : Index :=
  demo_index (λ _ _, true) (λ _, false) (λ _, SUCCESS).

Definition opA : WriteOp := ("tag", "thread:1", TagSet {[ "a" ]}, true).
Definition opB : WriteOp := ("untag", "thread:1", TagList ["inbox"], false).
Definition opC : WriteOp := ("set", "thread:2", TagList ["z"], false).

Definition demo_config : Config := {| maildir_synchronize_flags := true |}.

Definition rw_manager : DBManager := DBManager_init "/mail" false.
Definition ro_manager : DBManager := DBManager_init "/mail" true.
Definition manager_ABC : DBManager := set_writequeue rw_manager [opA; opB; opC].

(** The thread view of [demo_thread], tagged x and y. *)
Definition thread_xy : Thread := Thread_init rw_manager demo_thread.

(** A thread view tagged x only. *)
Definition thread_x : Thread := set_tags_field thread_xy {[ "x" ]}.

(** The same view once its message tree was built. *)
Definition thread_with_tree : Thread :=
  (get_messages thread_xy rw_manager index_ok).1.2.

Definition empty_os : OS := {| os_pipes := []; os_procs := [] |}.

(** A second thread. *)
Definition other_thread : NThread :=
  {| nt_thread_id := "2";
     nt_total_messages := 1;
     nt_authors := "dave";
     nt_subject := "other";
     nt_oldest_date := 1300000100;
     nt_newest_date := 1300000100;
     nt_tags := [];
     nt_toplevel_messages := [NMsg "m3" None] |}.

Definition three_threads : list pyval :=
  [PyThread demo_thread; PyThread other_thread; PyThread demo_thread].

(** Three items of which the second is no thread. *)
Definition mixed_items : list pyval :=
  [PyThread demo_thread; PyStr "not a thread"; PyThread other_thread].

(** A system with one manager, no worker yet. *)
Definition sys_start : System :=
  {| sys_dbman := rw_manager; sys_index := index_ok; sys_os := empty_os |}.

(** A run of the system. *)
Fixpoint steps (acts : list action) (s : System) : option System :=
  match acts with
  | [] => Some s
  | a :: acts =>
      match step a s with
      | Some s => steps acts s
      | None => None
      end
  end.

Definition spawn_three : action :=
  CallAsync (λ _, Return three_threads) get_thread_id.

(** The system once a worker over three items was started and ran to its
    end. *)
Definition sys_worker_done : System :=
  default sys_start
    (steps [spawn_three; WorkerStep 0; WorkerStep 0; WorkerStep 0;
            WorkerStep 0] sys_start).

(** The same after [kill_search_processes]. *)
Definition sys_killed : System :=
  default sys_start (step CallKillSearchProcesses sys_worker_done).

(** The system with two workers: the first has run to its end, the second
    has sent one value and is still running. *)
Definition sys_two_workers : System :=
  default sys_start
    (steps [spawn_three; WorkerStep 0; WorkerStep 0; WorkerStep 0;
            WorkerStep 0; spawn_three; WorkerStep 1] sys_start).

(** The same after [kill_search_processes]. *)
Definition sys_two_workers_killed : System :=
  default sys_start (step CallKillSearchProcesses sys_two_workers).

(** ** The rest of [Thread] *)

(** [Thread.get_tags], lines 302-310: [list(self._tags)], sorted.  Python
    orders str values byte by byte, which is [String.le]; the tags of a
    set are distinct, so every sorting procedure gives the same list. *)
Definition get_tags (self : Thread) : list string :=
  merge_sort String.le (elements (_tags self)).

(** The loop of [get_replies_to], lines 415-418: the value of the first key
    whose identifier is [mid], or [None]. *)
Fixpoint find_replies (mid : string) (msg_hash : msgdict)
    : option (list Message) :=
  match msg_hash with
  | [] => None
  | (m, replies) :: msg_hash =>
      if String.eqb (get_message_id m) mid then Some replies
      else find_replies mid msg_hash
  end.

(** [Thread.get_replies_to], lines 405-418. *)
Definition get_replies_to (msg : Message) (self : Thread) (dbman : DBManager)
    (ix : Index) : result (option (list Message)) * Thread * Index :=
  let mid := get_message_id msg in
  match get_messages self dbman ix with
  | (Raise e, self, ix) => (Raise e, self, ix)
  | (Return msg_hash, self, ix) =>
      (Return (find_replies mid msg_hash), self, ix)
  end.

(** ** The message tree, described from the thread of the index *)

(** The wrapper of a message of the index. *)
Definition wrap (msg : NMessage) : Message :=
  match msg with NMsg mid _ => {| get_message_id := mid |} end.

(** The direct replies of a message of the index. *)
Definition replies_of (msg : NMessage) : list NMessage :=
  match msg with
  | NMsg _ None => []
  | NMsg _ (Some r) => r
  end.

(** The identifier of a message of the index. *)
Definition message_id_of (msg : NMessage) : string :=
  match msg with NMsg mid _ => mid end.

(** A message and everything below it: the message first, then what is
    below its replies, reply by reply. *)
Fixpoint tree_nodes (msg : NMessage) : list NMessage :=
  match msg with
  | NMsg mid r =>
      NMsg mid r ::
      match r with
      | None => []
      | Some r =>
          (fix below (r : list NMessage) : list NMessage :=
             match r with
             | [] => []
             | m :: r => tree_nodes m ++ below r
             end) r
      end
  end.

(** The same for a list of messages. *)
Definition forest_nodes (ms : list NMessage) : list NMessage :=
  mjoin (tree_nodes <$> ms).

(** The identifiers of all the messages of a list of trees. *)
Definition forest_ids (ms : list NMessage) : list string :=
  message_id_of <$> forest_nodes ms.

(** A message with its direct replies, both wrapped. *)
Definition entry_of (msg : NMessage) : Message * list Message :=
  (wrap msg, wrap <$> replies_of msg).

(** Every message of a list of trees with its direct replies. *)
Definition forest_entries (ms : list NMessage) : msgdict :=
  entry_of <$> forest_nodes ms.

(** The identifiers of the keys of a dict of messages. *)
Definition dict_ids (d : msgdict) : list string :=
  (λ kv, get_message_id kv.1) <$> d.

(** The loop over the replies in [accumulate], lines 395-396. *)
Fixpoint accumulate_replies (acc : nat * building) (M : Message)
    (r : list NMessage) : result Message * (nat * building) :=
  match r with
  | [] => (Return M, acc)
  | m :: r =>
      match dict_get acc.2 M with
      | None => (Raise KeyError, acc)
      | Some L =>
          match accumulate acc m with
          | (Raise e, acc) => (Raise e, acc)
          | (Return child, acc) =>
              accumulate_replies (acc.1, list_append acc.2 L child) M r
          end
      end
  end.

(** The entries of the messages [ns], with lists numbered from [L] on. *)
Fixpoint numbered (L : nat) (ns : list NMessage) : building :=
  match ns with
  | [] => []
  | m :: ns => (wrap m, (L, wrap <$> replies_of m)) :: numbered (S L) ns
  end.

(** The identifiers of the keys of a dict under construction. *)
Definition building_ids (d : building) : list string :=
  (λ e, get_message_id e.1) <$> d.

(** A thread of two top-level messages, the first with two replies, one
    of which has a reply of its own. *)
Definition demo_forest : list NMessage :=
  [NMsg "a" (Some [NMsg "b" (Some [NMsg "c" None]); NMsg "d" None]);
   NMsg "e" None].

Definition forest_thread : NThread :=
  {| nt_thread_id := "9";
     nt_total_messages := 5;
     nt_authors := "carol";
     nt_subject := "tree";
     nt_oldest_date := 1300000000;
     nt_newest_date := 1300000600;
     nt_tags := ["b"; "a"; "b"];
     nt_toplevel_messages := demo_forest |}.

(** An index on which everything succeeds and that holds [forest_thread]. *)
Definition index_forest : Index :=
  {| idx_open_fails := λ _ _, false;
     idx_begin_fails := λ _, false;
     idx_end_status := λ _, SUCCESS;
     idx_messages := demo_messages;
     idx_threads := λ q,
       if String.eqb q "thread:9" then Return [forest_thread] else Return [];
     idx_tags := demo_store;
     idx_snapshot := None;
     idx_log := [] |}.

(** An index on which no transaction can be started. *)
Definition index_no_transaction : Index :=
  demo_index (λ _ _, false) (λ _, true) (λ _, SUCCESS).

(** An index on which no transaction commits. *)
Definition index_never_commits : Index :=
  demo_index (λ _ _, false) (λ _, false) (λ _, XAPIAN_EXCEPTION).

(** ** Runs of calls *)

(** A call of one of the two methods that enqueue. *)
Inductive enqueue_call : Type :=
  | TagCall (querystring : string) (tags : pytags) (remove_rest : bool)
  | UntagCall (querystring : string) (tags : pytags).

Definition enqueue (config : Config) (c : enqueue_call) (self : DBManager)
    : result unit * DBManager :=
  match c with
  | TagCall q tags remove_rest => tag config q tags remove_rest self
  | UntagCall q tags => untag config q tags self
  end.

(** The calls one after the other, whatever each returns or raises. *)
Definition enqueue_all (config : Config) (cs : list enqueue_call)
    (self : DBManager) : DBManager :=
  foldl (λ self c, (enqueue config c self).2) self cs.

(** The command a call asks for. *)
Definition command_of (config : Config) (c : enqueue_call) : WriteOp :=
  match c with
  | TagCall q tags remove_rest =>
      (if remove_rest then "set" else "tag", q, tags,
       maildir_synchronize_flags config)
  | UntagCall q tags => ("untag", q, tags, maildir_synchronize_flags config)
  end.

(** The log of committed transactions for the commands of a queue, one
    after the other, from the index [db]. *)
Fixpoint transactions_events (queue : list WriteOp) (db : Index)
    : list event :=
  match queue with
  | [] => []
  | item :: queue =>
      transaction_events item db ++
      transactions_events queue (transaction item db)
  end.

(** A thread without messages, and an index that holds it. *)
Definition empty_thread : NThread :=
  {| nt_thread_id := "3";
     nt_total_messages := 0;
     nt_authors := "";
     nt_subject := "";
     nt_oldest_date := 0;
     nt_newest_date := 0;
     nt_tags := [];
     nt_toplevel_messages := [] |}.

Definition index_empty_thread : Index :=
  {| idx_open_fails := λ _ _, false;
     idx_begin_fails := λ _, false;
     idx_end_status := λ _, SUCCESS;
     idx_messages := demo_messages;
     idx_threads := λ q,
       if String.eqb q "thread:3" then Return [empty_thread] else Return [];
     idx_tags := demo_store;
     idx_snapshot := None;
     idx_log := [] |}.

(** * Properties *)

(** ** The index under the calls of [flush] *)

Lemma same_engine_refl (a : Index) : same_engine a a.
Proof. by repeat split. Qed.

Lemma same_engine_trans (a b c : Index) :
  same_engine a b → same_engine b c → same_engine a c.
Proof.
  intros (?&?&?&?&?) (?&?&?&?&?). repeat split; congruence.
Qed.

Lemma same_engine_with_log (a : Index) (e : event) :
  same_engine (with_log a e) a.
Proof. by repeat split. Qed.

Lemma same_engine_with_tags (a : Index) (t : gmap string (gset string)) :
  same_engine (with_tags a t) a.
Proof. by repeat split. Qed.

Lemma same_engine_with_snapshot (a : Index)
    (o : option (gmap string (gset string))) :
  same_engine (with_snapshot a o) a.
Proof. by repeat split. Qed.

(** A loop over tags that only logs and alters the tags of one message. *)
Lemma foldl_tag_calls (msg : string) (op : gset string → string → gset string)
    (ev : string → event) (call : string → Index → Index) (l : list string) :
  (∀ t d, call t d =
          with_log (with_tags d (alter (λ s, op s t) msg (idx_tags d))) (ev t)) →
  ∀ db,
    let db' := foldl (λ d t, call (encode t DB_ENC) d) db l in
    same_engine db' db ∧
    idx_log db' = idx_log db ++ (ev <$> l) ∧
    idx_snapshot db' = idx_snapshot db ∧
    idx_tags db' = alter (λ s, foldl op s l) msg (idx_tags db).
Proof.
  intros Hcall. unfold encode.
  induction l as [|t l IH]; intros db; cbn zeta; simpl.
  - repeat split; [by rewrite app_nil_r|].
    symmetry. apply alter_id. done.
  - destruct (IH (call t db)) as (He & Hl & Hs & Ht).
    rewrite Hcall in He, Hl, Hs, Ht. rewrite Hcall.
    repeat split; try apply He.
    + rewrite Hl. simpl. by rewrite <- app_assoc.
    + by rewrite Hs.
    + rewrite Ht. simpl. by rewrite alter_alter_eq.
Qed.

Lemma foldl_union (l : list string) (s : gset string) :
  foldl (λ s t, s ∪ {[t]}) s l = s ∪ list_to_set l.
Proof.
  revert s. induction l as [|t l IH]; intros s; simpl.
  - set_solver.
  - rewrite IH. set_solver.
Qed.

Lemma foldl_difference (l : list string) (s : gset string) :
  foldl (λ s t, s ∖ {[t]}) s l = s ∖ list_to_set l.
Proof.
  revert s. induction l as [|t l IH]; intros s; simpl.
  - set_solver.
  - rewrite IH. set_solver.
Qed.

(** What [flush] does to one message, against the words of the spec: the
    calls are the frozen unit of [message_events], and the message ends
    with the tags of [tags_after]. *)
Lemma apply_to_message_spec (cmd : string) (tags : pytags) (sync : bool)
    (db : Index) (msg : string) :
  let db' := apply_to_message cmd tags sync db msg in
  same_engine db' db ∧
  idx_log db' = idx_log db ++ message_events cmd tags sync msg ∧
  idx_snapshot db' = idx_snapshot db ∧
  idx_tags db' = alter (tags_after cmd tags) msg (idx_tags db).
Proof.
  pose proof (foldl_tag_calls msg (λ s t, s ∪ {[t]})
                (λ t, EvAddTag msg t sync) (λ t, msg_add_tag msg t sync)
                (iter_tags tags) (λ _ _, eq_refl)) as Hadd.
  pose proof (foldl_tag_calls msg (λ s t, s ∖ {[t]})
                (λ t, EvRemoveTag msg t sync) (λ t, msg_remove_tag msg t sync)
                (iter_tags tags) (λ _ _, eq_refl)) as Hrem.
  unfold apply_to_message, message_events, tags_after.
  destruct (String.eqb_spec cmd "tag") as [->|Htag].
  { simpl. destruct (Hadd (msg_freeze msg db)) as (He & Hl & Hs & Ht).
    repeat split; try apply He.
    - simpl. rewrite Hl. simpl. by rewrite <- !app_assoc.
    - simpl. by rewrite Hs.
    - simpl. rewrite Ht. simpl. apply alter_ext. intros s _.
      apply foldl_union. }
  destruct (String.eqb_spec cmd "set") as [->|Hset].
  { simpl.
    destruct (Hadd (msg_remove_all_tags msg (msg_freeze msg db)))
      as (He & Hl & Hs & Ht).
    repeat split; try apply He.
    - simpl. rewrite Hl. simpl. by rewrite <- !app_assoc.
    - simpl. by rewrite Hs.
    - simpl. rewrite Ht. simpl. rewrite alter_alter_eq. apply alter_ext.
      intros s _. simpl. rewrite foldl_union. set_solver. }
  destruct (String.eqb_spec cmd "untag") as [->|Huntag].
  { simpl. destruct (Hrem (msg_freeze msg db)) as (He & Hl & Hs & Ht).
    repeat split; try apply He.
    - simpl. rewrite Hl. simpl. by rewrite <- !app_assoc.
    - simpl. by rewrite Hs.
    - simpl. rewrite Ht. simpl. apply alter_ext. intros s _.
      apply foldl_difference. }
  simpl. repeat split.
  - by rewrite <- app_assoc.
  - symmetry. by apply alter_id.
Qed.

(** The body of one transaction, against the words of the spec. *)
Lemma apply_item_spec (item : WriteOp) (db : Index) :
  let db' := apply_item item db in
  same_engine db' db ∧
  idx_log db' = idx_log db ++ item_events item (matching item db) ∧
  idx_snapshot db' = idx_snapshot db ∧
  idx_tags db' = store_after item (matching item db) (idx_tags db).
Proof.
  destruct item as [[[cmd q] tags] sync].
  unfold apply_item, item_events, store_after, matching, search_messages.
  simpl.
  set (db0 := with_log (create_query q db) (EvSearchMessages q)).
  assert (Hgen : ∀ msgs d,
    let d' := foldl (apply_to_message cmd tags sync) d msgs in
    same_engine d' d ∧
    idx_log d' = idx_log d ++ mjoin (message_events cmd tags sync <$> msgs) ∧
    idx_snapshot d' = idx_snapshot d ∧
    idx_tags d' =
      foldl (λ st msg, alter (tags_after cmd tags) msg st) (idx_tags d) msgs).
  { induction msgs as [|m msgs IH]; intros d; simpl.
    - repeat split. by rewrite app_nil_r.
    - destruct (apply_to_message_spec cmd tags sync d m) as (He & Hl & Hs & Ht).
      destruct (IH (apply_to_message cmd tags sync d m))
        as (He' & Hl' & Hs' & Ht').
      split; [eapply same_engine_trans; [apply He'|apply He]|].
      split; [rewrite Hl', Hl; simpl; by rewrite <- app_assoc|].
      split; [by rewrite Hs', Hs|].
      by rewrite Ht', Ht. }
  destruct (Hgen (idx_messages db (idx_tags db) q) db0) as (He & Hl & Hs & Ht).
  split; [eapply same_engine_trans; [apply He|subst db0; by repeat split]|].
  split; [rewrite Hl; subst db0; simpl; by rewrite <- !app_assoc|].
  split; [by rewrite Hs|]. by rewrite Ht.
Qed.

(** ** Transactions *)

Lemma begin_atomic_ok (db : Index) :
  idx_begin_fails db (idx_log db) = false →
  begin_atomic db =
    (Return tt,
     with_log (with_snapshot db (Some (idx_tags db))) (EvBeginAtomic true)).
Proof. intros H. unfold begin_atomic. by rewrite H. Qed.

Lemma begin_atomic_raises (db : Index) :
  idx_begin_fails db (idx_log db) = true →
  begin_atomic db = (Raise XapianError, with_log db (EvBeginAtomic false)).
Proof. intros H. unfold begin_atomic. by rewrite H. Qed.

(** One turn of the loop of [flush] whose transaction starts. *)
Lemma flush_loop_turn (fuel : nat) (item : WriteOp) (queue : list WriteOp)
    (db : Index) :
  idx_begin_fails db (idx_log db) = false →
  flush_loop (S fuel) (item :: queue) db =
    let db1 := apply_item item (begin_atomic db).2 in
    if negb (status_eqb (end_atomic db1).1 SUCCESS)
    then flush_loop fuel (item :: queue) (end_atomic db1).2
    else flush_loop fuel queue (end_atomic db1).2.
Proof.
  intros H. cbn [flush_loop]. rewrite (begin_atomic_ok db H). cbn [snd].
  match goal with |- context [end_atomic ?d] => by destruct (end_atomic d) end.
Qed.

(** A transaction that starts and commits, against the words of the spec:
    its calls are bracketed by the begin and the end, and the store is the
    one the command asks for. *)
Lemma transaction_spec (item : WriteOp) (db : Index) :
  (∀ log, idx_begin_fails db log = false) →
  (∀ log, idx_end_status db log = SUCCESS) →
  let db' := transaction item db in
  same_engine db' db ∧
  idx_log db' = idx_log db ++ transaction_events item db ∧
  idx_snapshot db' = None ∧
  idx_tags db' = store_after item (matching item db) (idx_tags db).
Proof.
  intros Hb He. unfold transaction, transaction_events.
  rewrite (begin_atomic_ok db (Hb _)). simpl.
  set (db1 := with_log (with_snapshot db (Some (idx_tags db)))
                (EvBeginAtomic true)).
  destruct (apply_item_spec item db1) as (Hs & Hl & Hsn & Ht).
  assert (Hm : matching item db1 = matching item db) by done.
  rewrite Hm in Hl, Ht.
  assert (Hst : idx_end_status (apply_item item db1)
                  (idx_log (apply_item item db1)) = SUCCESS).
  { destruct Hs as (_ & _ & -> & _). apply He. }
  unfold end_atomic. rewrite Hst. simpl.
  split.
  { eapply same_engine_trans; [|eapply same_engine_trans; [apply Hs|]];
      by repeat split. }
  split; [rewrite Hl; subst db1; simpl; by rewrite <- !app_assoc|].
  split; [done|]. by rewrite Ht.
Qed.

(** When every transaction starts and commits, the loop takes the queue
    from the head, one transaction per command, and leaves it empty. *)
Lemma flush_loop_all_commit (queue : list WriteOp) (db : Index) :
  (∀ log, idx_begin_fails db log = false) →
  (∀ log, idx_end_status db log = SUCCESS) →
  flush_loop (S (length queue)) queue db =
    Some (Return tt, [], foldl (λ d item, transaction item d) db queue).
Proof.
  revert db. induction queue as [|item queue IH]; intros db Hb He; [done|].
  rewrite flush_loop_turn by apply Hb.
  destruct (transaction_spec item db Hb He) as ((_ & Hb' & He' & _) & _).
  fold (transaction item db).
  assert (Hst : (end_atomic (apply_item item (begin_atomic db).2)).1 = SUCCESS).
  { unfold end_atomic. simpl.
    destruct (apply_item_spec item (begin_atomic db).2)
      as ((_ & _ & -> & _) & _).
    rewrite (begin_atomic_ok db (Hb _)). simpl. apply He. }
  cbn zeta. rewrite Hst. simpl negb. cbn iota.
  change (foldl (λ d it, transaction it d) db (item :: queue))
    with (foldl (λ d it, transaction it d) (transaction item db) queue).
  apply IH; intros log; [rewrite Hb'|rewrite He']; done.
Qed.

Lemma status_eqb_SUCCESS (st : STATUS) :
  status_eqb st SUCCESS = true ↔ st = SUCCESS.
Proof. by destruct st. Qed.

(** More fuel does not change the outcome of a loop that ended. *)
Lemma flush_loop_fuel_mono (fuel fuel' : nat) (queue : list WriteOp)
    (db : Index) (r : result unit * list WriteOp * Index) :
  flush_loop fuel queue db = Some r → fuel ≤ fuel' →
  flush_loop fuel' queue db = Some r.
Proof.
  revert fuel' queue db. induction fuel as [|fuel IH]; [done|].
  intros [|fuel'] queue db H Hle; [lia|].
  cbn [flush_loop] in *. destruct queue as [|item queue]; [done|].
  destruct (begin_atomic db) as [[[]|e] db1]; [|done].
  destruct (end_atomic (apply_item item db1)) as [st db2].
  destruct (negb (status_eqb st SUCCESS)); apply IH; (done || lia).
Qed.

Lemma flush_fuel_mono (fuel fuel' : nat) (self : DBManager) (ix : Index)
    (r : result unit * DBManager * Index) :
  flush fuel self ix = Some r → fuel ≤ fuel' → flush fuel' self ix = Some r.
Proof.
  unfold flush. intros H Hle. destruct (ro self); [done|].
  destruct (writequeue self) as [|item queue]; [done|].
  destruct (Database (path self) READ_WRITE ix) as [[[]|e] db]; [|done].
  destruct (flush_loop fuel (item :: queue) db) as [r'|] eqn:E; [|done].
  by rewrite (flush_loop_fuel_mono _ _ _ _ _ E Hle).
Qed.

(** The loop is left normally only with an empty queue. *)
Lemma flush_loop_returns_empty (fuel : nat) (queue queue' : list WriteOp)
    (db db' : Index) :
  flush_loop fuel queue db = Some (Return tt, queue', db') → queue' = [].
Proof.
  revert queue db. induction fuel as [|fuel IH]; [done|].
  intros queue db H. cbn [flush_loop] in H.
  destruct queue as [|item queue]; [by inversion H|].
  destruct (begin_atomic db) as [[[]|e] db1].
  - destruct (end_atomic (apply_item item db1)) as [st db2].
    destruct (negb (status_eqb st SUCCESS)); eapply IH; apply H.
  - by destruct e.
Qed.

(** A [flush] that returns leaves an empty queue behind: a command whose
    commit failed is never what a returning [flush] leaves in the queue. *)
Lemma flush_returns_empty (fuel : nat) (self self' : DBManager)
    (ix ix' : Index) :
  flush fuel self ix = Some (Return tt, self', ix') → writequeue self' = [].
Proof.
  unfold flush. destruct (ro self); [done|].
  destruct (writequeue self) as [|item queue] eqn:Q.
  { intros H. inversion H. by subst. }
  destruct (Database (path self) READ_WRITE ix) as [[[]|e] db].
  - destruct (flush_loop fuel (item :: queue) db) as [[[r q] d]|] eqn:E;
      [|done].
    intros H. inversion H. subst. simpl.
    by eapply flush_loop_returns_empty.
  - by destruct (is_NotmuchError e).
Qed.

(** A failed commit puts the command back and the loop takes it again at
    once, in the same [flush]. *)
Lemma flush_loop_failed_commit (fuel : nat) (item : WriteOp)
    (queue : list WriteOp) (db : Index) :
  idx_begin_fails db (idx_log db) = false →
  (end_atomic (apply_item item (begin_atomic db).2)).1 ≠ SUCCESS →
  flush_loop (S fuel) (item :: queue) db =
    flush_loop fuel (item :: queue)
      (end_atomic (apply_item item (begin_atomic db).2)).2.
Proof.
  intros Hb He. rewrite flush_loop_turn by done. cbn zeta.
  destruct (status_eqb _ SUCCESS) eqn:E; [|done].
  by apply status_eqb_SUCCESS in E.
Qed.

(** While commits keep failing, the loop does not end. *)
Lemma flush_loop_never_commits (fuel : nat) (queue : list WriteOp)
    (db : Index) :
  queue ≠ [] →
  (∀ log, idx_begin_fails db log = false) →
  (∀ log, idx_log db `prefix_of` log → idx_end_status db log ≠ SUCCESS) →
  flush_loop fuel queue db = None.
Proof.
  revert db. induction fuel as [|fuel IH]; [done|].
  intros db Hq Hb He. destruct queue as [|item queue]; [done|].
  set (db0 := (begin_atomic db).2).
  assert (H0 : same_engine db0 db ∧ idx_log db `prefix_of` idx_log db0).
  { subst db0. rewrite (begin_atomic_ok db (Hb _)). simpl.
    split; [by repeat split|by eexists]. }
  destruct H0 as [Hs0 Hp0].
  destruct (apply_item_spec item db0) as (Hs1 & Hl1 & _ & _).
  set (db1 := apply_item item db0) in *.
  assert (Hs : same_engine db1 db) by (by eapply same_engine_trans).
  assert (Hp : idx_log db `prefix_of` idx_log db1).
  { etrans; [apply Hp0|]. rewrite Hl1. by eexists. }
  assert (Hst : (end_atomic db1).1 ≠ SUCCESS).
  { unfold end_atomic. simpl. destruct Hs as (_ & _ & -> & _). by apply He. }
  rewrite flush_loop_failed_commit by (done || apply Hb).
  fold db0. fold db1. apply IH; [done| |].
  - intros log. unfold end_atomic. simpl.
    destruct Hs as (_ & -> & _). apply Hb.
  - intros log Hlog. unfold end_atomic in *. simpl in *.
    destruct Hs as (_ & _ & -> & _). apply He.
    etrans; [apply Hp|]. etrans; [|apply Hlog]. by eexists.
Qed.

(** ** [DBManager.flush] *)

(** C2.  On a read-write manager whose queue is [A; B; C], when the index
    opens and every transaction starts and commits, [flush] returns, the
    queue is empty afterwards, and the index is the one reached by the
    transaction of A, then that of B, then that of C: the log is the open
    followed by the three transactions in this order, each between its
    own begin and end, and the tag store is the one the three commands
    ask for, in this order. *)
Theorem flush_applies_in_fifo_order (A B C : WriteOp) (self : DBManager)
    (ix : Index) :
  ro self = false →
  writequeue self = [A; B; C] →
  (∀ log, idx_open_fails ix READ_WRITE log = false) →
  (∀ log, idx_begin_fails ix log = false) →
  (∀ log, idx_end_status ix log = SUCCESS) →
  let db0 := (Database (path self) READ_WRITE ix).2 in
  let dbA := transaction A db0 in
  let dbB := transaction B dbA in
  let dbC := transaction C dbB in
  (∀ fuel, 4 ≤ fuel →
     flush fuel self ix = Some (Return tt, set_writequeue self [], dbC)) ∧
  idx_log dbC =
    idx_log ix ++ [EvOpen (path self) READ_WRITE true] ++
    transaction_events A db0 ++ transaction_events B dbA ++
    transaction_events C dbB ∧
  idx_tags dbC =
    store_after C (matching C dbB)
      (store_after B (matching B dbA)
         (store_after A (matching A db0) (idx_tags ix))).
Proof.
  intros Hro Hq Ho Hb He db0 dbA dbB dbC.
  assert (Hdb0 : Database (path self) READ_WRITE ix =
                 (Return tt, with_log ix (EvOpen (path self) READ_WRITE true))).
  { unfold Database. by rewrite Ho. }
  assert (H0 : (∀ log, idx_begin_fails db0 log = false) ∧
               (∀ log, idx_end_status db0 log = SUCCESS)).
  { subst db0. rewrite Hdb0. done. }
  destruct H0 as [Hb0 He0].
  destruct (transaction_spec A db0 Hb0 He0) as (HsA & HlA & _ & HtA).
  assert (HA : (∀ log, idx_begin_fails dbA log = false) ∧
               (∀ log, idx_end_status dbA log = SUCCESS)).
  { subst dbA. destruct HsA as (_ & -> & -> & _). done. }
  destruct HA as [HbA HeA].
  destruct (transaction_spec B dbA HbA HeA) as (HsB & HlB & _ & HtB).
  assert (HB : (∀ log, idx_begin_fails dbB log = false) ∧
               (∀ log, idx_end_status dbB log = SUCCESS)).
  { subst dbB. destruct HsB as (_ & -> & -> & _). done. }
  destruct HB as [HbB HeB].
  destruct (transaction_spec C dbB HbB HeB) as (HsC & HlC & _ & HtC).
  split; [|split].
  - intros fuel Hfuel. apply (flush_fuel_mono 4); [|done].
    unfold flush. rewrite Hro, Hq.
    change 4 with (S (length [A; B; C])).
    clear -Hdb0 Hb0 He0. subst dbC dbB dbA db0. rewrite Hdb0 in *.
    rewrite flush_loop_all_commit; [done|apply Hb0|apply He0].
  - fold dbA dbB dbC in HlA, HlB, HlC. rewrite HlC, HlB, HlA.
    subst db0. rewrite Hdb0. cbn [snd with_log idx_log].
    by rewrite <- !app_assoc.
  - fold dbA dbB dbC in HtA, HtB, HtC. rewrite HtC, HtB, HtA.
    subst db0. by rewrite Hdb0.
Qed.

(** The queue [A; B; C] against an index on which everything succeeds. *)
Lemma flush_applies_in_fifo_order_witness :
  outcome (flush 4 manager_ABC index_ok) =
    Some (Return tt, [],
          [EvOpen "/mail" READ_WRITE true;
           EvBeginAtomic true;
           EvCreateQuery "thread:1"; EvSearchMessages "thread:1";
           EvFreeze "m1"; EvAddTag "m1" "a" true; EvThaw "m1";
           EvFreeze "m2"; EvAddTag "m2" "a" true; EvThaw "m2";
           EvEndAtomic SUCCESS;
           EvBeginAtomic true;
           EvCreateQuery "thread:1"; EvSearchMessages "thread:1";
           EvFreeze "m1"; EvRemoveTag "m1" "inbox" false; EvThaw "m1";
           EvFreeze "m2"; EvRemoveTag "m2" "inbox" false; EvThaw "m2";
           EvEndAtomic SUCCESS;
           EvBeginAtomic true;
           EvCreateQuery "thread:2"; EvSearchMessages "thread:2";
           EvEndAtomic SUCCESS]).
Proof.
  pose proof (flush_applies_in_fifo_order opA opB opC manager_ABC index_ok
                eq_refl eq_refl (λ _, eq_refl) (λ _, eq_refl) (λ _, eq_refl))
    as (Hrun & _ & _).
  rewrite (Hrun 4 (le_n 4)). reflexivity.
Defined.

(** C3, as the code has it.  With an empty queue [flush] makes no call to
    the index and leaves the manager, and so the queue, as it was; it
    returns normally on a manager that is not read-only and raises
    [DatabaseROError] on a read-only one, the read-only check being the
    first thing it does. *)
Theorem flush_empty_queue (fuel : nat) (self : DBManager) (ix : Index) :
  writequeue self = [] →
  flush fuel self ix =
    Some (if ro self then Raise DatabaseROError else Return tt, self, ix).
Proof.
  intros Hq. unfold flush. rewrite Hq. by destruct (ro self).
Qed.

(** A fresh read-write manager. *)
Lemma flush_empty_queue_witness :
  flush 1 rw_manager index_ok = Some (Return tt, rw_manager, index_ok).
Proof. apply (flush_empty_queue 1 rw_manager index_ok). reflexivity. Defined.

(** C3 as stated fails: a read-only manager with an empty queue gets
    [DatabaseROError] from [flush]. *)
Lemma flush_empty_queue_read_only_raises :
  writequeue ro_manager = [] ∧
  flush 1 ro_manager index_ok =
    Some (Raise DatabaseROError, ro_manager, index_ok) ∧
  flush 1 ro_manager index_ok ≠ Some (Return tt, ro_manager, index_ok).
Proof. repeat split. discriminate. Qed.

(** The loop of [flush] never opens the index. *)
Lemma flush_loop_no_open (path : string) (fuel : nat) (queue q : list WriteOp)
    (d d' : Index) (r : result unit) :
  flush_loop fuel queue d = Some (r, q, d') →
  ∃ k, idx_log d' = idx_log d ++ k ∧ EvOpen path READ_WRITE false ∉ k.
Proof.
  revert queue d. induction fuel as [|fuel IH]; [done|].
  intros queue d H. destruct queue as [|item queue].
  { inversion H. subst. exists []. split; [by rewrite app_nil_r|].
    apply not_elem_of_nil. }
  destruct (idx_begin_fails d (idx_log d)) eqn:Hb.
  { cbn [flush_loop] in H. rewrite (begin_atomic_raises d Hb) in H.
    inversion H. subst. exists [EvBeginAtomic false]. split; [done|].
    by intros ?%list_elem_of_singleton. }
  rewrite flush_loop_turn in H by apply Hb. cbn zeta in H.
  set (d0 := (begin_atomic d).2) in *.
  destruct (apply_item_spec item d0) as (_ & Hl1 & _ & _).
  set (d1 := apply_item item d0) in *.
  assert (Hl0 : idx_log d0 = idx_log d ++ [EvBeginAtomic true]).
  { subst d0. by rewrite (begin_atomic_ok d Hb). }
  set (d2 := (end_atomic d1).2) in *.
  assert (Hl2 : idx_log d2 = idx_log d1 ++ [EvEndAtomic (end_atomic d1).1])
    by done.
  assert (Hrec : ∃ queue', flush_loop fuel queue' d2 = Some (r, q, d')).
  { destruct (negb _); eauto. }
  destruct Hrec as [queue' Hrec].
  destruct (IH _ _ Hrec) as (k & Hk & Hnin).
  eexists. split.
  { rewrite Hk, Hl2, Hl1, Hl0. rewrite <- !app_assoc. reflexivity. }
  rewrite !not_elem_of_app. repeat split; try done.
  - by intros ?%list_elem_of_singleton.
  - destruct item as [[[cmd q0] tags] sync]. unfold item_events.
    rewrite not_elem_of_app. split.
    { intros Hx. repeat (apply elem_of_cons in Hx as [Hx|Hx]; [done|]).
      by apply elem_of_nil in Hx. }
    intros Hx. apply list_elem_of_join in Hx as (l & Hx & Hl).
    apply list_elem_of_fmap in Hl as (m & -> & _).
    unfold message_events in Hx.
    rewrite !elem_of_app in Hx. destruct Hx as [Hx|[Hx|Hx]].
    + by apply list_elem_of_singleton in Hx.
    + repeat case_match;
        repeat (apply elem_of_cons in Hx as [Hx|Hx]; [done|]);
        try (by apply elem_of_nil in Hx);
        by apply list_elem_of_fmap in Hx as (? & ? & _).
    + by apply list_elem_of_singleton in Hx.
  - by intros ?%list_elem_of_singleton.
Qed.

(** Whenever a [flush] made a failed attempt to open the index, whatever
    the manager, it raised [DatabaseLockedError] and left the manager as
    it was. *)
Lemma flush_failed_open_locked (fuel : nat) (self self' : DBManager)
    (ix ix' : Index) (r : result unit) :
  flush fuel self ix = Some (r, self', ix') →
  EvOpen (path self) READ_WRITE false ∈ new_events ix ix' →
  r = Raise DatabaseLockedError ∧ self' = self ∧
  new_events ix ix' = [EvOpen (path self) READ_WRITE false].
Proof.
  unfold flush, new_events. destruct (ro self).
  { intros H. inversion H. subst. rewrite drop_all. by intros ?%elem_of_nil. }
  destruct (writequeue self) as [|item queue].
  { intros H. inversion H. subst. rewrite drop_all. by intros ?%elem_of_nil. }
  unfold Database. destruct (idx_open_fails ix READ_WRITE (idx_log ix)).
  { simpl. intros H. inversion H. subst. simpl.
    by rewrite drop_app_length. }
  intros H Hin. exfalso.
  destruct (flush_loop fuel (item :: queue) _) as [[[r' q'] d']|] eqn:E;
    [|done].
  inversion H. subst. clear H.
  destruct (flush_loop_no_open (path self) _ _ _ _ _ _ E) as (k & Hk & Hnin).
  rewrite Hk in Hin. simpl in Hin.
  rewrite <- app_assoc, drop_app_length in Hin.
  apply elem_of_cons in Hin as [Hin|Hin]; done.
Qed.

(** C4.  With a queue that is not empty, when the open of the index for
    writing fails, [flush] raises [DatabaseLockedError] and the manager
    is unchanged: nothing was taken from the queue, nothing was applied,
    and the failed open is the only call made to the index.  The open is
    attempted by every manager that is not read-only; and for every
    manager, a [flush] during which the open failed has raised
    [DatabaseLockedError] and left the manager as it was. *)
Theorem flush_locked_leaves_queue (fuel : nat) (self : DBManager)
    (ix : Index) :
  writequeue self ≠ [] →
  (ro self = false →
   idx_open_fails ix READ_WRITE (idx_log ix) = true →
   flush fuel self ix =
     Some (Raise DatabaseLockedError, self,
           with_log ix (EvOpen (path self) READ_WRITE false))) ∧
  (∀ r self' ix',
     flush fuel self ix = Some (r, self', ix') →
     EvOpen (path self) READ_WRITE false ∈ new_events ix ix' →
     r = Raise DatabaseLockedError ∧ self' = self ∧
     writequeue self' = writequeue self ∧
     new_events ix ix' = [EvOpen (path self) READ_WRITE false]).
Proof.
  intros Hq. split.
  - intros Hro Ho. unfold flush, Database. rewrite Hro, Ho.
    by destruct (writequeue self).
  - intros r self' ix' Hrun Hev.
    destruct (flush_failed_open_locked _ _ _ _ _ _ Hrun Hev)
      as (-> & -> & Hnew).
    by repeat split.
Qed.

(** The queue [A; B; C] against a locked index. *)
Lemma flush_locked_leaves_queue_witness :
  outcome (flush 0 manager_ABC index_locked) =
    Some (Raise DatabaseLockedError, [opA; opB; opC],
          [EvOpen "/mail" READ_WRITE false]) ∧
  new_events index_locked
    (with_log index_locked (EvOpen "/mail" READ_WRITE false)) =
    [EvOpen "/mail" READ_WRITE false].
Proof.
  assert (Hq : writequeue manager_ABC ≠ []) by discriminate.
  destruct (flush_locked_leaves_queue 0 manager_ABC index_locked Hq)
    as [Hrun Hlog].
  specialize (Hrun eq_refl eq_refl).
  destruct (Hlog _ _ _ Hrun (list_elem_of_here _ _)) as (_ & _ & _ & Hnew).
  split; [by rewrite Hrun|exact Hnew].
Defined.

(** C1 at the failing input.  The queue is [A; B; C], the commit of B
    fails once and every other commit succeeds.  One [flush] returns with
    an empty queue, not with [B] in it: after the failed commit B is put
    back at the head and the loop, whose test is [while self.writequeue],
    takes it again at once; the log shows the transaction of B twice
    within this one [flush], the second time between that of A and that
    of C. *)
Theorem flush_retries_failed_commit_at_once :
  outcome (flush 5 manager_ABC index_second_commit_fails) =
    Some (Return tt, [],
          [EvOpen "/mail" READ_WRITE true;
           EvBeginAtomic true;
           EvCreateQuery "thread:1"; EvSearchMessages "thread:1";
           EvFreeze "m1"; EvAddTag "m1" "a" true; EvThaw "m1";
           EvFreeze "m2"; EvAddTag "m2" "a" true; EvThaw "m2";
           EvEndAtomic SUCCESS;
           EvBeginAtomic true;
           EvCreateQuery "thread:1"; EvSearchMessages "thread:1";
           EvFreeze "m1"; EvRemoveTag "m1" "inbox" false; EvThaw "m1";
           EvFreeze "m2"; EvRemoveTag "m2" "inbox" false; EvThaw "m2";
           EvEndAtomic XAPIAN_EXCEPTION;
           EvBeginAtomic true;
           EvCreateQuery "thread:1"; EvSearchMessages "thread:1";
           EvFreeze "m1"; EvRemoveTag "m1" "inbox" false; EvThaw "m1";
           EvFreeze "m2"; EvRemoveTag "m2" "inbox" false; EvThaw "m2";
           EvEndAtomic SUCCESS;
           EvBeginAtomic true;
           EvCreateQuery "thread:2"; EvSearchMessages "thread:2";
           EvEndAtomic SUCCESS]).
Proof. reflexivity. Qed.

Lemma commits_so_far_app (l k : list event) :
  commits_so_far (l ++ k) = commits_so_far l + commits_so_far k.
Proof. unfold commits_so_far. by rewrite filter_app, length_app. Qed.

(** When the commit of B fails every time, the [flush] of [A; B; C] does
    not return at all: it tries B over and over. *)
Lemma flush_spins_on_failing_commit (fuel : nat) :
  flush fuel manager_ABC index_commits_once = None.
Proof.
  destruct fuel as [|fuel]; [reflexivity|].
  unfold flush. cbn [ro manager_ABC set_writequeue rw_manager DBManager_init
                     writequeue path].
  change (Database "/mail" READ_WRITE index_commits_once)
    with (Return tt, with_log index_commits_once
                       (EvOpen "/mail" READ_WRITE true)).
  cbn iota.
  set (db0 := with_log index_commits_once (EvOpen "/mail" READ_WRITE true)).
  rewrite flush_loop_turn by reflexivity. cbn zeta.
  set (dbA := (end_atomic (apply_item opA (begin_atomic db0).2))).
  assert (HstA : dbA.1 = SUCCESS) by reflexivity.
  rewrite HstA. cbn [status_eqb negb].
  rewrite flush_loop_never_commits; [done|done|done|].
  intros log [k ->].
  change (idx_end_status dbA.2) with
    (λ log, if Nat.eqb (commits_so_far log) 0 then SUCCESS
            else XAPIAN_EXCEPTION).
  cbn beta. rewrite commits_so_far_app.
  replace (commits_so_far (idx_log dbA.2)) with 1 by reflexivity.
  done.
Qed.

(** ** Tag changes through a thread *)

Lemma set_truthy_false (s : gset string) : set_truthy s = false ↔ s = ∅.
Proof.
  unfold set_truthy. rewrite negb_false_iff. apply bool_decide_eq_true.
Qed.

Lemma set_truthy_true (s : gset string) : set_truthy s = true ↔ s ≠ ∅.
Proof.
  unfold set_truthy. rewrite negb_true_iff. apply bool_decide_eq_false.
Qed.

(** [add_tags] with nothing new to add changes nothing. *)
Lemma add_tags_empty_delta (config : Config) (tags : pytags) (self : Thread)
    (dbman : DBManager) :
  set_of tags ∖ _tags self = ∅ →
  add_tags config tags self dbman = (Return tt, self, dbman).
Proof.
  intros H. unfold add_tags. by rewrite (proj2 (set_truthy_false _) H).
Qed.

(** [remove_tags] with nothing to remove changes nothing. *)
Lemma remove_tags_empty_delta (config : Config) (tags : pytags)
    (self : Thread) (dbman : DBManager) :
  set_of tags ∩ _tags self = ∅ →
  remove_tags config tags self dbman = (Return tt, self, dbman).
Proof.
  intros H. unfold remove_tags. by rewrite (proj2 (set_truthy_false _) H).
Qed.

(** [set_tags] with a set that is the current set changes nothing. *)
Lemma set_tags_same_set (config : Config) (self : Thread) (dbman : DBManager) :
  set_tags config (TagSet (_tags self)) self dbman = (Return tt, self, dbman).
Proof.
  unfold set_tags, py_ne, py_eq. by rewrite bool_decide_eq_true_2.
Qed.

(** [set_tags] with a list goes on to [DBManager.tag] whatever the list
    holds, since a list never equals the set [self._tags]: on a manager
    that is not read-only a ['set'] command is queued every time. *)
Lemma set_tags_list_enqueues (config : Config) (l : list string)
    (self : Thread) (dbman : DBManager) :
  ro dbman = false →
  set_tags config (TagList l) self dbman =
    (Return tt, set_tags_field self (list_to_set l),
     set_writequeue dbman
       (writequeue dbman ++
        [("set", "thread:" +:+ _id self, TagList l,
          maildir_synchronize_flags config)])).
Proof. intros Hro. unfold set_tags, tag. simpl. by rewrite Hro. Qed.

(** C5 at the failing input.  A thread is tagged x and [set_tags] is
    called with the list [["x"]], the same tags: a ['set'] command is
    queued all the same, while the local tags stay x.  ([add_tags] and
    [remove_tags] compare [set(tags)] with the local tags, [set_tags]
    compares [tags] itself.) *)
Theorem set_tags_same_tags_as_list_enqueues :
  _tags thread_x = {[ "x" ]} ∧
  set_of (TagList ["x"]) = _tags thread_x ∧
  set_tags demo_config (TagList ["x"]) thread_x rw_manager =
    (Return tt, thread_x,
     set_writequeue rw_manager [("set", "thread:1", TagList ["x"], true)]).
Proof.
  split; [reflexivity|]. split; [vm_compute; reflexivity|].
  rewrite set_tags_list_enqueues by reflexivity.
  vm_compute. reflexivity.
Qed.

(** C7, as the code has it.  When the tags to remove meet the local tags
    and the manager is not read-only, [remove_tags] appends one ['untag']
    command to the queue, for the query [thread:<id>] and with the tags
    as they were passed, and takes the tags that were met out of the
    local set.  On a read-only manager it raises [DatabaseROError] and
    changes nothing. *)
Theorem remove_tags_enqueues_request (config : Config) (tags : pytags)
    (self : Thread) (dbman : DBManager) :
  set_of tags ∩ _tags self ≠ ∅ →
  remove_tags config tags self dbman =
    if ro dbman then (Raise DatabaseROError, self, dbman)
    else
      (Return tt,
       set_tags_field self (_tags self ∖ (set_of tags ∩ _tags self)),
       set_writequeue dbman
         (writequeue dbman ++
          [("untag", "thread:" +:+ _id self, tags,
            maildir_synchronize_flags config)])).
Proof.
  intros H. unfold remove_tags, untag.
  rewrite (proj2 (set_truthy_true _) H). by destruct (ro dbman).
Qed.

(** Removing x and z from a thread tagged x and y: the command carries x
    and z, the thread keeps y. *)
Lemma remove_tags_enqueues_request_witness :
  set_of (TagList ["x"; "z"]) ∩ _tags thread_xy ≠ ∅ ∧
  remove_tags demo_config (TagList ["x"; "z"]) thread_xy rw_manager =
    (Return tt, set_tags_field thread_xy (_tags thread_xy ∖ {[ "x" ]}),
     set_writequeue rw_manager
       [("untag", "thread:1", TagList ["x"; "z"], true)]).
Proof.
  assert (H : set_of (TagList ["x"; "z"]) ∩ _tags thread_xy ≠ ∅)
    by (vm_compute; discriminate).
  split; [exact H|].
  rewrite (remove_tags_enqueues_request demo_config (TagList ["x"; "z"])
             thread_xy rw_manager H).
  vm_compute. reflexivity.
Defined.

(** C7 as stated fails on a thread of a read-only manager: nothing is
    queued and the local tags stay. *)
Lemma remove_tags_read_only_raises :
  set_of (TagList ["x"; "z"]) ∩ _tags thread_xy ≠ ∅ ∧
  remove_tags demo_config (TagList ["x"; "z"]) thread_xy ro_manager =
    (Raise DatabaseROError, thread_xy, ro_manager) ∧
  writequeue ro_manager = [].
Proof.
  split; [vm_compute; discriminate|]. split; [|reflexivity].
  vm_compute. reflexivity.
Qed.

(** ** [Thread.refresh] and the message tree *)

(** Induction over a message and its replies. *)
Lemma NMessage_tree_ind (P : NMessage → Prop) :
  (∀ mid, P (NMsg mid None)) →
  (∀ mid r, Forall P r → P (NMsg mid (Some r))) →
  ∀ msg, P msg.
Proof.
  intros Hnone Hsome. fix IH 1. intros [mid [r|]]; [|apply Hnone].
  apply Hsome. revert r. fix IHr 1. intros [|m r].
  - constructor.
  - constructor; [apply IH|apply IHr].
Qed.

Lemma tree_nodes_Some (mid : string) (r : list NMessage) :
  tree_nodes (NMsg mid (Some r)) = NMsg mid (Some r) :: forest_nodes r.
Proof.
  cbn [tree_nodes]. f_equal. unfold forest_nodes.
  induction r as [|m r IH]; [done|].
  change (mjoin (tree_nodes <$> m :: r))
    with (tree_nodes m ++ mjoin (tree_nodes <$> r)).
  by rewrite <- IH.
Qed.

Lemma forest_nodes_cons (m : NMessage) (ms : list NMessage) :
  forest_nodes (m :: ms) = tree_nodes m ++ forest_nodes ms.
Proof. done. Qed.

Lemma accumulate_unfold (acc : nat * building) (mid : string)
    (r : option (list NMessage)) :
  accumulate acc (NMsg mid r) =
    match r with
    | None =>
        (Return {| get_message_id := mid |},
         (S acc.1, dict_set acc.2 {| get_message_id := mid |} acc.1))
    | Some r =>
        accumulate_replies
          (S acc.1, dict_set acc.2 {| get_message_id := mid |} acc.1)
          {| get_message_id := mid |} r
    end.
Proof.
  cbn [accumulate]. destruct r as [r|]; [|done].
  generalize (S acc.1, dict_set acc.2 {| get_message_id := mid |} acc.1).
  induction r as [|m r IH]; intros st; [done|].
  cbn [accumulate_replies]. destruct (dict_get st.2 _); [|done].
  destruct (accumulate st m) as [[child|e] st1]; [apply IH|done].
Qed.

(** [acc[M] = []] for a key that is not there adds the key at the end. *)
Lemma dict_set_fresh (acc : building) (M : Message) (L : nat) :
  get_message_id M ∉ building_ids acc →
  dict_set acc M L = acc ++ [(M, (L, []))].
Proof.
  induction acc as [|[K w] acc IH]; intros Hnin; [done|].
  cbn [dict_set]. unfold building_ids in Hnin. rewrite fmap_cons in Hnin.
  apply not_elem_of_cons in Hnin as [Hne Hnin].
  rewrite decide_False by (intros ->; done).
  simpl. f_equal. by apply IH.
Qed.

(** [acc[M]] is the list that was put under the key. *)
Lemma dict_get_found (acc rest : building) (M : Message) (L : nat)
    (w : list Message) :
  get_message_id M ∉ building_ids acc →
  dict_get (acc ++ (M, (L, w)) :: rest) M = Some L.
Proof.
  induction acc as [|[K [L' u]] acc IH]; intros Hnin.
  - simpl. by rewrite decide_True.
  - simpl. unfold building_ids in Hnin. rewrite fmap_cons in Hnin.
    apply not_elem_of_cons in Hnin as [Hne Hnin].
    rewrite decide_False by (intros ->; done). by apply IH.
Qed.

(** Appending to a list that is in the dict shows under its key. *)
Lemma list_append_found (acc rest : building) (K x : Message) (L : nat)
    (w : list Message) :
  Forall (λ e, e.2.1 ≠ L) acc →
  list_append (acc ++ (K, (L, w)) :: rest) L x =
    acc ++ (K, (L, w ++ [x])) :: rest.
Proof.
  induction acc as [|[K' [L' u]] acc IH]; intros Hne.
  - simpl. by rewrite decide_True.
  - apply Forall_cons in Hne as [Hne Hrest]. simpl in Hne. simpl.
    rewrite decide_False by done. f_equal. by apply IH.
Qed.

Lemma building_ids_app (a b : building) :
  building_ids (a ++ b) = building_ids a ++ building_ids b.
Proof. apply fmap_app. Qed.

Lemma building_ids_numbered (L : nat) (ns : list NMessage) :
  building_ids (numbered L ns) = message_id_of <$> ns.
Proof.
  revert L. induction ns as [|[mid r] ns IH]; intros L; [done|].
  unfold building_ids in *. simpl. by rewrite IH.
Qed.

Lemma numbered_app (L : nat) (a b : list NMessage) :
  numbered L (a ++ b) = numbered L a ++ numbered (L + length a) b.
Proof.
  revert L. induction a as [|m a IH]; intros L.
  - simpl. by rewrite Nat.add_0_r.
  - simpl. rewrite IH. do 3 f_equal. lia.
Qed.

Lemma numbered_lt (L : nat) (ns : list NMessage) :
  Forall (λ e, e.2.1 < L + length ns) (numbered L ns).
Proof.
  revert L. induction ns as [|m ns IH]; intros L; [constructor|].
  simpl. constructor; [simpl; lia|].
  eapply Forall_impl; [apply IH|]. intros e He. simpl in *. lia.
Qed.

Lemma built_numbered (L : nat) (ns : list NMessage) :
  built (numbered L ns) = entry_of <$> ns.
Proof.
  revert L. induction ns as [|m ns IH]; intros L; [done|].
  unfold built in *. simpl. by rewrite IH.
Qed.

Lemma dict_ids_forest_entries (ms : list NMessage) :
  dict_ids (forest_entries ms) = forest_ids ms.
Proof.
  unfold dict_ids, forest_entries, forest_ids.
  rewrite <- list_fmap_compose. apply list_fmap_ext.
  by intros _ [mid r] _.
Qed.

Lemma forest_nodes_one (m : NMessage) : forest_nodes [m] = tree_nodes m.
Proof. unfold forest_nodes. simpl. by rewrite app_nil_r. Qed.

(** [accumulate] on a message whose identifiers, with those below it, are
    distinct and new to the dict: it returns the wrapper of the message,
    and the entries of the message and of everything below it are added
    at the end, each with a list of its own. *)
Lemma accumulate_spec (msg : NMessage) :
  ∀ (next : nat) (acc : building),
  NoDup (message_id_of <$> tree_nodes msg) →
  (∀ id, id ∈ message_id_of <$> tree_nodes msg → id ∉ building_ids acc) →
  Forall (λ e, e.2.1 < next) acc →
  accumulate (next, acc) msg =
    (Return (wrap msg),
     (next + length (tree_nodes msg), acc ++ numbered next (tree_nodes msg))).
Proof.
  induction msg as [mid|mid r IH] using NMessage_tree_ind;
    intros next acc Hnd Hfresh Hlt.
  - rewrite accumulate_unfold. cbn [fst snd].
    rewrite dict_set_fresh by (apply Hfresh, list_elem_of_here).
    simpl. do 3 f_equal. lia.
  - rewrite accumulate_unfold. cbn [fst snd].
    rewrite tree_nodes_Some in *. rewrite fmap_cons in Hnd, Hfresh.
    set (M := {| get_message_id := mid |}).
    assert (HM : mid ∉ building_ids acc) by (apply Hfresh, list_elem_of_here).
    rewrite dict_set_fresh by done.
    apply NoDup_cons in Hnd as [Hmid Hnd].
    assert (Hgen : ∀ (r' : list NMessage) (children : list Message)
                     (entries : building) (ctr : nat),
      Forall (λ m, ∀ next acc,
                NoDup (message_id_of <$> tree_nodes m) →
                (∀ id, id ∈ message_id_of <$> tree_nodes m →
                       id ∉ building_ids acc) →
                Forall (λ e, e.2.1 < next) acc →
                accumulate (next, acc) m =
                  (Return (wrap m),
                   (next + length (tree_nodes m),
                    acc ++ numbered next (tree_nodes m)))) r' →
      NoDup (forest_ids r') →
      (∀ id, id ∈ forest_ids r' →
             id ∉ building_ids (acc ++ (M, (next, children)) :: entries)) →
      next < ctr →
      Forall (λ e, e.2.1 < ctr) entries →
      accumulate_replies (ctr, acc ++ (M, (next, children)) :: entries) M r' =
        (Return M,
         (ctr + length (forest_nodes r'),
          acc ++ (M, (next, children ++ (wrap <$> r'))) ::
          entries ++ numbered ctr (forest_nodes r')))).
    { clear -HM Hlt.
      induction r' as [|m r' IHr];
        intros children entries ctr HF Hnd Hfr Hctr Hent.
      - cbn [accumulate_replies]. unfold forest_nodes. simpl.
        rewrite !app_nil_r. do 2 f_equal. lia.
      - apply Forall_cons in HF as [Hm HF].
        unfold forest_ids in Hnd, Hfr. rewrite forest_nodes_cons in Hnd, Hfr.
        rewrite fmap_app in Hnd, Hfr.
        apply NoDup_app in Hnd as (Hnd1 & Hdisj & Hnd2).
        cbn [accumulate_replies snd].
        rewrite dict_get_found by done.
        rewrite Hm; [|done| |].
        + cbn [fst snd]. rewrite <- app_assoc. cbn [app].
          rewrite list_append_found.
          2:{ eapply Forall_impl; [apply Hlt|]. intros e He. simpl in *. lia. }
          etrans; [apply (IHr (children ++ [wrap m])
                     (entries ++ numbered ctr (tree_nodes m))
                     (ctr + length (tree_nodes m))); [done | done | | lia |]|].
          3:{ rewrite forest_nodes_cons, length_app, numbered_app, fmap_cons.
              rewrite <- !app_assoc. cbn [app].
              by rewrite Nat.add_assoc. }
          * intros id Hid. unfold building_ids.
            rewrite fmap_app, fmap_cons, fmap_app.
            fold (building_ids acc). fold (building_ids entries).
            fold (building_ids (numbered ctr (tree_nodes m))).
            rewrite building_ids_numbered.
            assert (Hold : id ∉ building_ids
                                  (acc ++ (M, (next, children)) :: entries)).
            { apply Hfr. apply elem_of_app. by right. }
            unfold building_ids in Hold. rewrite fmap_app, fmap_cons in Hold.
            rewrite not_elem_of_app, not_elem_of_cons in Hold.
            destruct Hold as (H1 & H2 & H3).
            rewrite not_elem_of_app, not_elem_of_cons, not_elem_of_app.
            repeat split; try done.
            intros Hin. by apply (Hdisj id).
          * apply Forall_app. split.
            -- eapply Forall_impl; [apply Hent|]. intros e He. simpl in *. lia.
            -- apply numbered_lt.
        + intros id Hid. apply Hfr. apply elem_of_app. by left.
        + apply Forall_app. split.
          * eapply Forall_impl; [apply Hlt|]. intros e He. simpl in *. lia.
          * constructor; [simpl; lia|done]. }
    etrans; [apply (Hgen r [] [] (S next)); [done | done | | lia | constructor]|].
    2:{ simpl. do 3 f_equal. lia. }
    + intros id Hid. unfold building_ids. rewrite fmap_app. simpl.
      rewrite not_elem_of_app, not_elem_of_cons. split; [|split].
      * apply Hfresh. by apply list_elem_of_further.
      * intros ->. done.
      * apply not_elem_of_nil.
Qed.

(** The loop over the top-level messages, under the same conditions. *)
Lemma accumulate_toplevel_spec (ms : list NMessage) :
  ∀ (next : nat) (acc : building) (toplevel : list Message),
  NoDup (forest_ids ms) →
  (∀ id, id ∈ forest_ids ms → id ∉ building_ids acc) →
  Forall (λ e, e.2.1 < next) acc →
  accumulate_toplevel (next, acc) toplevel ms =
    (Return tt,
     ((next + length (forest_nodes ms),
       acc ++ numbered next (forest_nodes ms)),
      toplevel ++ (wrap <$> ms))).
Proof.
  induction ms as [|m ms IH]; intros next acc toplevel Hnd Hfresh Hlt.
  - cbn [accumulate_toplevel]. unfold forest_nodes. simpl.
    rewrite !app_nil_r. do 3 f_equal. lia.
  - unfold forest_ids in Hnd, Hfresh.
    rewrite forest_nodes_cons, fmap_app in Hnd, Hfresh.
    apply NoDup_app in Hnd as (Hnd1 & Hdisj & Hnd2).
    cbn [accumulate_toplevel]. rewrite accumulate_spec; [|done| |done].
    + rewrite IH; [| done | |].
      * rewrite forest_nodes_cons, length_app, numbered_app, fmap_cons.
        rewrite <- !app_assoc. cbn [app]. by rewrite Nat.add_assoc.
      * intros id Hid. rewrite building_ids_app, building_ids_numbered.
        rewrite not_elem_of_app. split.
        -- apply Hfresh. apply elem_of_app. by right.
        -- intros Hin. by apply (Hdisj id).
      * apply Forall_app. split.
        -- eapply Forall_impl; [apply Hlt|]. intros e He. simpl in *. lia.
        -- apply numbered_lt.
    + intros id Hid. apply Hfresh. apply elem_of_app. by left.
Qed.

(** The first [get_messages] on a view whose mapping is empty. *)
Lemma get_messages_first (self : Thread) (dbman : DBManager)
    (ix : Index) (thread : NThread) (others : list NThread) :
  _messages self = [] →
  idx_open_fails ix READ_ONLY (idx_log ix) = false →
  idx_threads ix ("thread:" +:+ _id self) = Return (thread :: others) →
  NoDup (forest_ids (nt_toplevel_messages thread)) →
  ∃ ix',
    get_messages self dbman ix =
      (Return (forest_entries (nt_toplevel_messages thread)),
       set_tree self (forest_entries (nt_toplevel_messages thread))
         (_toplevel_messages self ++ (wrap <$> nt_toplevel_messages thread)),
       ix') ∧
    (∀ m, m ∈ forest_nodes (nt_toplevel_messages thread) →
          (wrap m, wrap <$> replies_of m)
            ∈ forest_entries (nt_toplevel_messages thread)) ∧
    new_events ix ix' =
      [EvOpen (path dbman) READ_ONLY true;
       EvCreateQuery ("thread:" +:+ _id self);
       EvSearchThreads ("thread:" +:+ _id self)].
Proof.
  intros Hm Ho Ht Hnd. unfold get_messages, query, Database.
  rewrite Hm, Ho. cbn [dict_empty]. unfold search_threads, create_query.
  cbn [idx_threads with_log]. rewrite Ht. cbn [next].
  rewrite accumulate_toplevel_spec;
    [|done|by intros ? _ ?%elem_of_nil|constructor].
  cbn [fst snd app]. rewrite built_numbered.
  fold (forest_entries (nt_toplevel_messages thread)).
  eexists. split; [reflexivity|]. split.
  - intros m Hin. unfold forest_entries.
    apply list_elem_of_fmap. by exists m.
  - unfold new_events. simpl. rewrite <- !app_assoc.
    by rewrite drop_app_length.
Qed.

(** With a message identifier that comes twice the reply is lost: the
    list that was taken before the reply was wrapped is no longer under
    the key when the wrapper is appended to it. *)
Example accumulate_repeated_id :
  let '(r, (next, acc)) :=
    accumulate (0, []) (NMsg "a" (Some [NMsg "a" None])) in
  r = Return {| get_message_id := "a" |} ∧
  next = 2 ∧
  built acc = [({| get_message_id := "a" |}, [])].
Proof. repeat split. Qed.

(** C6, as the code has it.  [refresh] reads the thread it is given, or
    else the first thread that the search for the identifier of the view
    finds in the index, which it opens read-only; when the index does not
    open, or the search raises or finds nothing, [refresh] raises and
    leaves the thread view as it was.  A [refresh] that succeeds takes
    the message count, authors, subject, dates and tags from that thread,
    keeps the identifier, and empties both the messages mapping and the
    list of top-level messages (lines 292-293).  So the next
    [get_messages] on the view opens the index and searches again, and
    builds the tree anew from the thread it finds there: what was built
    before the [refresh] is gone. *)
Theorem refresh_resets_tree (thread : option NThread) (self : Thread)
    (dbman : DBManager) (ix : Index) :
  let q := "thread:" +:+ _id self in
  let searched (dbman : DBManager) (ix : Index) :=
    with_log
      (with_log (with_log ix (EvOpen (path dbman) READ_ONLY true))
         (EvCreateQuery q))
      (EvSearchThreads q) in
  refresh thread self dbman ix =
    match thread with
    | Some t => (Return tt, refresh_from t (_id self), ix)
    | None =>
        if idx_open_fails ix READ_ONLY (idx_log ix)
        then (Raise NotmuchError, self,
              with_log ix (EvOpen (path dbman) READ_ONLY false))
        else
          match idx_threads ix q with
          | Return (t :: _) =>
              (Return tt, refresh_from t (_id self), searched dbman ix)
          | Return [] => (Raise StopIteration, self, searched dbman ix)
          | Raise e => (Raise e, self, searched dbman ix)
          end
    end ∧
  ∀ t : NThread,
    let self' := refresh_from t (_id self) in
    _id self' = _id self ∧
    _total_messages self' = nt_total_messages t ∧
    _authors self' = nt_authors t ∧
    _subject self' = nt_subject t ∧
    _oldest_date self' = date_or_None (nt_oldest_date t) ∧
    _newest_date self' = date_or_None (nt_newest_date t) ∧
    _tags self' = list_to_set (nt_tags t) ∧
    _messages self' = [] ∧
    _toplevel_messages self' = [] ∧
    ∀ (dbman' : DBManager) (ix' : Index),
      if idx_open_fails ix' READ_ONLY (idx_log ix')
      then get_messages self' dbman' ix' =
             (Raise NotmuchError, self',
              with_log ix' (EvOpen (path dbman') READ_ONLY false))
      else
        match idx_threads ix' q with
        | Return (t' :: _) =>
            (get_messages self' dbman' ix').2 = searched dbman' ix' ∧
            (NoDup (forest_ids (nt_toplevel_messages t')) →
             get_messages self' dbman' ix' =
               (Return (forest_entries (nt_toplevel_messages t')),
                set_tree self' (forest_entries (nt_toplevel_messages t'))
                  (wrap <$> nt_toplevel_messages t'),
                searched dbman' ix'))
        | Return [] =>
            get_messages self' dbman' ix' =
              (Raise StopIteration, self', searched dbman' ix')
        | Raise e =>
            get_messages self' dbman' ix' =
              (Raise e, self', searched dbman' ix')
        end.
Proof.
  intros q searched. split.
  - unfold refresh, query, Database, search_threads, create_query.
    destruct thread as [t|]; [done|].
    destruct (idx_open_fails ix READ_ONLY (idx_log ix)); [done|].
    cbn [idx_threads with_log]. fold q.
    by destruct (idx_threads ix q) as [[|t ts]|e].
  - intros t self'. do 9 (split; [done|]). intros dbman' ix'.
    unfold get_messages, query, Database, search_threads, create_query.
    cbn [_messages self' refresh_from dict_empty _id].
    destruct (idx_open_fails ix' READ_ONLY (idx_log ix')); [done|].
    cbn [idx_threads with_log]. fold q.
    destruct (idx_threads ix' q) as [[|t' ts]|e]; [done| |done].
    cbn [next _toplevel_messages]. split.
    + by destruct (accumulate_toplevel _ _ _) as [[[]|e] [acc top]].
    + intros Hnd. rewrite accumulate_toplevel_spec;
        [|done|by intros ? _ ?%elem_of_nil|constructor].
      cbn [fst snd app]. rewrite built_numbered.
      fold (forest_entries (nt_toplevel_messages t')). done.
Qed.

(** The view of thread 1 with its tree built, refreshed from the index:
    the view is as when it was made, and the next [get_messages] builds
    the same tree again, with three more calls to the index. *)
Lemma refresh_resets_tree_witness :
  let after := refresh None thread_with_tree rw_manager index_ok in
  after.1 = (Return tt, thread_xy) ∧
  (get_messages after.1.2 rw_manager after.2).1 =
    (Return (_messages thread_with_tree), thread_with_tree) ∧
  idx_log (get_messages after.1.2 rw_manager after.2).2 =
    idx_log after.2 ++
    [EvOpen "/mail" READ_ONLY true; EvCreateQuery "thread:1";
     EvSearchThreads "thread:1"].
Proof.
  intros after.
  destruct (refresh_resets_tree None thread_with_tree rw_manager index_ok)
    as [H1 H2].
  split; [subst after; rewrite H1; reflexivity|].
  destruct (H2 demo_thread) as (_ & _ & _ & _ & _ & _ & _ & _ & _ & Hg).
  destruct (Hg rw_manager after.2) as [Hix Hbuilt].
  assert (Hnd : NoDup (forest_ids (nt_toplevel_messages demo_thread))).
  { apply (bool_decide_unpack _). vm_compute. exact I. }
  specialize (Hbuilt Hnd).
  split.
  - change (after.1.2) with (refresh_from demo_thread (_id thread_with_tree)).
    rewrite Hbuilt. reflexivity.
  - change (after.1.2) with (refresh_from demo_thread (_id thread_with_tree)).
    rewrite Hix. reflexivity.
Defined.

(** C6 as stated fails: a thread view whose tree was built has lost it
    after [refresh], and the next [get_messages] asks the index again. *)
Lemma refresh_drops_cached_tree :
  _messages thread_with_tree =
    [({| get_message_id := "m1" |}, [{| get_message_id := "m2" |}]);
     ({| get_message_id := "m2" |}, [])] ∧
  _toplevel_messages thread_with_tree = [{| get_message_id := "m1" |}] ∧
  let after := refresh None thread_with_tree rw_manager index_ok in
  after.1.1 = Return tt ∧
  _messages after.1.2 = [] ∧
  _toplevel_messages after.1.2 = [] ∧
  idx_log (get_messages after.1.2 rw_manager after.2).2 =
    idx_log after.2 ++
    [EvOpen "/mail" READ_ONLY true; EvCreateQuery "thread:1";
     EvSearchThreads "thread:1"].
Proof. repeat split. Qed.

(** Without a [refresh] in between, a tree that was built and is not empty
    is returned as it is, with no call to the index. *)
Lemma get_messages_cached (self : Thread) (dbman : DBManager) (ix : Index) :
  _messages self ≠ [] →
  get_messages self dbman ix = (Return (_messages self), self, ix).
Proof.
  intros H. unfold get_messages. by destruct (_messages self).
Qed.

(** ** [DBManager.get_thread] *)

(** C10, as the code has it.  [get_thread] makes the query before the
    [try]: when the index cannot be opened for reading, the
    [NotmuchError] of the open reaches the caller.  When it opens,
    [get_thread] returns: the view of the first thread found, or [None]
    when the search raises, whatever it raises, or finds no thread. *)
Theorem get_thread_result (tid : string) (self : DBManager) (ix : Index) :
  get_thread tid self ix =
    if idx_open_fails ix READ_ONLY (idx_log ix)
    then (Raise NotmuchError,
          with_log ix (EvOpen (path self) READ_ONLY false))
    else
      (Return
         match idx_threads ix ("thread:" +:+ tid) with
         | Return (thread :: _) => Some (Thread_init self thread)
         | Return [] | Raise _ => None
         end,
       with_log
         (with_log
            (with_log ix (EvOpen (path self) READ_ONLY true))
            (EvCreateQuery ("thread:" +:+ tid)))
         (EvSearchThreads ("thread:" +:+ tid))).
Proof.
  unfold get_thread, query, Database.
  destruct (idx_open_fails ix READ_ONLY (idx_log ix)); [done|].
  unfold search_threads, create_query. simpl.
  destruct (idx_threads ix _) as [[|t ts]|e]; done.
Qed.

(** C10 as stated fails: on an index that cannot be opened, [get_thread]
    raises. *)
Lemma get_thread_propagates_open_failure :
  get_thread "1" rw_manager index_unreadable =
    (Raise NotmuchError,
     with_log index_unreadable (EvOpen "/mail" READ_ONLY false)).
Proof. reflexivity. Qed.

(** An error of the search other than the absence of the thread gives
    [None], as absence does. *)
Lemma get_thread_search_error_is_None :
  (get_thread "broken" rw_manager index_ok).1 = Return None ∧
  (get_thread "7" rw_manager index_ok).1 = Return None ∧
  (get_thread "1" rw_manager index_ok).1 = Return (Some thread_xy).
Proof. repeat split. Qed.

(** ** Search workers *)

Section Worker.

Variables (pid receiver : nat) (f : pyval → result pyval).

(** A turn of the loop of [run]: the value goes to the pipe. *)
Lemma run_step_send (os : OS) (a v : pyval) (it sent buf : list pyval)
    (n : nat) :
  f a = Return v →
  os_procs os !! pid =
    Some {| proc_it := a :: it; proc_pipe := receiver; proc_fun := f;
            proc_state := Running; proc_sent := sent |} →
  os_pipes os !! receiver =
    Some {| pipe_buffer := buf; pipe_senders := n |} →
  os_procs (run_step pid os) !! pid =
    Some {| proc_it := it; proc_pipe := receiver; proc_fun := f;
            proc_state := Running; proc_sent := sent ++ [v] |} ∧
  os_pipes (run_step pid os) !! receiver =
    Some {| pipe_buffer := buf ++ [v]; pipe_senders := n |}.
Proof.
  intros Hf Hp Hpipe. unfold run_step. rewrite Hp. simpl. rewrite Hf. simpl.
  rewrite !list_lookup_alter_eq, Hp, Hpipe. done.
Qed.

(** A turn of the loop in which [self.fun] raises: the worker is gone
    and its end of the pipe is closed; nothing is sent. *)
Lemma run_step_raise (os : OS) (a : pyval) (e : exception)
    (it sent buf : list pyval) (n : nat) :
  f a = Raise e →
  os_procs os !! pid =
    Some {| proc_it := a :: it; proc_pipe := receiver; proc_fun := f;
            proc_state := Running; proc_sent := sent |} →
  os_pipes os !! receiver =
    Some {| pipe_buffer := buf; pipe_senders := n |} →
  os_procs (run_step pid os) !! pid =
    Some {| proc_it := a :: it; proc_pipe := receiver; proc_fun := f;
            proc_state := Died e; proc_sent := sent |} ∧
  os_pipes (run_step pid os) !! receiver =
    Some {| pipe_buffer := buf; pipe_senders := pred n |}.
Proof.
  intros Hf Hp Hpipe. unfold run_step. rewrite Hp. simpl. rewrite Hf. simpl.
  rewrite !list_lookup_alter_eq, Hp, Hpipe. done.
Qed.

(** The end of [run]: the worker closes its end of the pipe. *)
Lemma run_step_close (os : OS) (sent buf : list pyval) (n : nat) :
  os_procs os !! pid =
    Some {| proc_it := []; proc_pipe := receiver; proc_fun := f;
            proc_state := Running; proc_sent := sent |} →
  os_pipes os !! receiver =
    Some {| pipe_buffer := buf; pipe_senders := n |} →
  os_procs (run_step pid os) !! pid =
    Some {| proc_it := []; proc_pipe := receiver; proc_fun := f;
            proc_state := Exited; proc_sent := sent |} ∧
  os_pipes (run_step pid os) !! receiver =
    Some {| pipe_buffer := buf; pipe_senders := pred n |}.
Proof.
  intros Hp Hpipe. unfold run_step. rewrite Hp. simpl.
  rewrite !list_lookup_alter_eq, Hp, Hpipe. done.
Qed.

(** A worker that is not running does nothing, however often it is
    stepped. *)
Lemma run_not_running (k : nat) (os : OS) :
  state_of pid os ≠ Some Running → run k pid os = os.
Proof.
  intros Hst. induction k as [|k IH]; [done|]. cbn [run].
  assert (Hstep : run_step pid os = os).
  { unfold state_of in Hst. unfold run_step.
    destruct (os_procs os !! pid) as [p|]; [|done].
    simpl in Hst. by destruct (proc_state p). }
  by rewrite Hstep.
Qed.

(** [run] from any point of the loop to its end, by the return of [run]
    or by an exception of [self.fun]. *)
Lemma run_completes (it : list pyval) :
  ∀ (os : OS) (sent buf : list pyval) (n : nat),
  os_procs os !! pid =
    Some {| proc_it := it; proc_pipe := receiver; proc_fun := f;
            proc_state := Running; proc_sent := sent |} →
  os_pipes os !! receiver =
    Some {| pipe_buffer := buf; pipe_senders := n |} →
  let os' := run (S (length it)) pid os in
  (∃ rest,
     os_procs os' !! pid =
       Some {| proc_it := rest; proc_pipe := receiver; proc_fun := f;
               proc_state := ending f it;
               proc_sent := sent ++ outputs f it |}) ∧
  os_pipes os' !! receiver =
    Some {| pipe_buffer := buf ++ outputs f it; pipe_senders := pred n |}.
Proof.
  induction it as [|a it IH]; intros os sent buf n Hp Hpipe.
  - destruct (run_step_close os sent buf n Hp Hpipe) as [H1 H2].
    cbn [run length outputs ending]. rewrite !app_nil_r. eauto.
  - cbn [outputs ending]. destruct (f a) as [v|e] eqn:Hf.
    + destruct (run_step_send os a v it sent buf n Hf Hp Hpipe) as [H1 H2].
      destruct (IH _ _ _ _ H1 H2) as [[rest H3] H4].
      cbn [run length] in *. rewrite <- !app_assoc in H3, H4. eauto.
    + destruct (run_step_raise os a e it sent buf n Hf Hp Hpipe) as [H1 H2].
      change (run (S (length (a :: it))) pid os)
        with (run (length (a :: it)) pid (run_step pid os)).
      rewrite run_not_running.
      * rewrite !app_nil_r. eauto.
      * unfold state_of. by rewrite H1.
Qed.

Lemma recv_all_unfold (fuel : nat) (os : OS) :
  recv_all (S fuel) receiver os =
    match recv receiver os with
    | (Received v, os) =>
        let '(vs, last, os) := recv_all fuel receiver os in
        (v :: vs, last, os)
    | (r, os) => ([], r, os)
    end.
Proof. done. Qed.

(** The consumer of a pipe all of whose sending ends are closed gets what
    is in the buffer and then the end of the stream. *)
Lemma recv_all_closed (buf : list pyval) :
  ∀ (os : OS) (fuel : nat),
  length buf < fuel →
  os_pipes os !! receiver =
    Some {| pipe_buffer := buf; pipe_senders := 0 |} →
  (recv_all fuel receiver os).1 = (buf, EOFError).
Proof.
  induction buf as [|v buf IH]; intros os fuel Hfuel Hpipe.
  - destruct fuel as [|fuel]; [simpl in Hfuel; lia|].
    cbn [recv_all]. unfold recv. by rewrite Hpipe.
  - destruct fuel as [|fuel]; [simpl in Hfuel; lia|].
    rewrite recv_all_unfold. unfold recv. rewrite Hpipe.
    cbn iota beta. cbn [pipe_buffer].
    set (os1 := update_pipe receiver _ os).
    assert (H1 : os_pipes os1 !! receiver =
                 Some {| pipe_buffer := buf; pipe_senders := 0 |}).
    { subst os1. simpl. by rewrite list_lookup_alter_eq, Hpipe. }
    specialize (IH os1 fuel ltac:(simpl in Hfuel; lia) H1).
    destruct (recv_all fuel receiver os1) as [[vs last] os2].
    simpl in *. by inversion IH.
Qed.

(** A step of the worker keeps the account of [feeding]. *)
Lemma feeding_run_step (it got : list pyval) (os : OS) :
  feeding pid receiver f it got os →
  feeding pid receiver f it got (run_step pid os).
Proof.
  intros (p & pp & Hp & Hr & Hf & Hpipe & Hacc & Hst).
  destruct p as [pit ppipe pf pst psent]. destruct pp as [buf n].
  simpl in *. subst ppipe pf.
  destruct pst;
    [|unfold run_step; rewrite Hp; by repeat eexists
     |unfold run_step; rewrite Hp; by repeat eexists|done].
  destruct pit as [|a pit].
  - destruct (run_step_close os psent buf n Hp Hpipe) as [H1 H2].
    eexists _, _. split; [apply H1|]. split; [done|]. split; [done|].
    split; [apply H2|]. simpl. by rewrite Hst.
  - destruct (f a) as [v|e] eqn:Hfa.
    + destruct (run_step_send os a v pit psent buf n Hfa Hp Hpipe)
        as [H1 H2].
      eexists _, _. split; [apply H1|]. split; [done|]. split; [done|].
      split; [apply H2|]. simpl. split; [|done].
      rewrite <- Hacc. cbn [outputs]. rewrite Hfa.
      by rewrite <- !app_assoc.
    + destruct (run_step_raise os a e pit psent buf n Hfa Hp Hpipe)
        as [H1 H2].
      eexists _, _. split; [apply H1|]. split; [done|]. split; [done|].
      split; [apply H2|]. simpl. split; [done|].
      cbn [outputs]. rewrite Hfa, Hst. done.
Qed.

(** A [recv] of the consumer keeps the account of [feeding]: it gets the
    next value, or it waits, or, only when everything was received, it
    meets the end of the stream. *)
Lemma feeding_recv (it got : list pyval) (os : OS) :
  feeding pid receiver f it got os →
  match recv receiver os with
  | (Received v, os') => feeding pid receiver f it (got ++ [v]) os'
  | (EOFError, os') => os' = os ∧ got = outputs f it
  | (Blocked, os') => os' = os
  end.
Proof.
  intros (p & pp & Hp & Hr & Hf & Hpipe & Hacc & Hst).
  destruct pp as [buf n]. unfold recv. rewrite Hpipe. simpl in *.
  destruct buf as [|v buf].
  - destruct n as [|n]; [|done]. split; [done|].
    destruct (proc_state p); [done| | |done].
    + destruct Hst as [Hit _]. rewrite Hit in Hacc. simpl in Hacc.
      by rewrite app_nil_r in Hacc.
    + destruct Hst as [Hout _]. rewrite Hout in Hacc. simpl in Hacc.
      by rewrite app_nil_r in Hacc.
  - exists p, {| pipe_buffer := buf; pipe_senders := n |}.
    repeat split; try done.
    + simpl. by rewrite list_lookup_alter_eq, Hpipe.
    + simpl. by rewrite <- Hacc, <- !app_assoc.
Qed.

(** Whatever the turns of the worker and of the consumer, the consumer
    receives the outputs of [f] over [it] in order, and meets the end of
    the stream only after all of them. *)
Lemma interleave_feeding (it : list pyval) (schedule : list bool) :
  ∀ (got : list pyval) (os : OS),
  feeding pid receiver f it got os →
  let '(rs, os') := interleave schedule pid receiver os in
  feeding pid receiver f it (got ++ values rs) os' ∧
  (EOFError ∈ rs → got ++ values rs = outputs f it).
Proof.
  induction schedule as [|[] schedule IH]; intros got os Hfeed.
  - cbn [interleave values]. rewrite app_nil_r. split; [done|].
    by intros ?%elem_of_nil.
  - cbn [interleave]. apply IH. by apply feeding_run_step.
  - cbn [interleave]. pose proof (feeding_recv it got os Hfeed) as Hrecv.
    destruct (recv receiver os) as [[v| |] os1].
    + specialize (IH _ _ Hrecv).
      destruct (interleave schedule pid receiver os1) as [rs os2].
      cbn [values]. destruct IH as [IH1 IH2].
      rewrite <- app_assoc in IH1, IH2. split; [done|].
      intros [?|?]%elem_of_cons; [done|auto].
    + destruct Hrecv as [-> Hgot].
      specialize (IH _ _ Hfeed).
      destruct (interleave schedule pid receiver os) as [rs os2].
      cbn [values]. destruct IH as [IH1 IH2]. split; [done|].
      intros _. destruct IH1 as (p & pp & _ & _ & _ & _ & Hacc & _).
      rewrite <- Hgot in Hacc. rewrite <- app_assoc in Hacc.
      rewrite <- (app_nil_r got) in Hacc at 2.
      apply app_inv_head in Hacc.
      apply app_eq_nil in Hacc as [-> _]. by rewrite app_nil_r.
    + subst os1. specialize (IH _ _ Hfeed).
      destruct (interleave schedule pid receiver os) as [rs os2].
      cbn [values]. destruct IH as [IH1 IH2]. split; [done|].
      intros [?|?]%elem_of_cons; [done|auto].
Qed.

(** When [f] returns for every item, the outputs are its values, one for
    each item. *)
Lemma outputs_all_return (it : list pyval) :
  (∀ a, a ∈ it → ∃ v, f a = Return v) →
  Forall2 (λ a v, f a = Return v) it (outputs f it) ∧
  length (outputs f it) = length it ∧
  ending f it = Exited.
Proof.
  induction it as [|a it IH]; intros Hall; [by repeat constructor|].
  destruct (Hall a (list_elem_of_here _ _)) as [v Hv].
  destruct IH as (H1 & H2 & H3).
  { intros b Hb. apply Hall. by apply list_elem_of_further. }
  cbn [outputs ending]. rewrite Hv. simpl.
  split; [by constructor|]. split; [by rewrite H2|done].
Qed.

(** When [f] raises for an item after returning for all before it, the
    outputs are those of the items before it. *)
Lemma outputs_until_raise (before after : list pyval) (a : pyval)
    (e : exception) :
  (∀ b, b ∈ before → ∃ v, f b = Return v) →
  f a = Raise e →
  outputs f (before ++ a :: after) = outputs f before ∧
  length (outputs f (before ++ a :: after)) = length before ∧
  ending f (before ++ a :: after) = Died e.
Proof.
  induction before as [|b before IH]; intros Hall Ha.
  - simpl. by rewrite Ha.
  - destruct (Hall b (list_elem_of_here _ _)) as [v Hv].
    destruct IH as (H1 & H2 & H3); [|done|].
    { intros c Hc. apply Hall. by apply list_elem_of_further. }
    change ((b :: before) ++ a :: after) with (b :: before ++ a :: after).
    cbn [outputs ending]. rewrite Hv. cbn [length].
    by rewrite H1, <- H2, H3, H1.
Qed.

End Worker.

(** The outputs of a function that never raises. *)
Lemma outputs_total (f : pyval → pyval) (it : list pyval) :
  outputs (λ a, Return (f a)) it = f <$> it.
Proof. induction it as [|a it IH]; [done|]. simpl. by rewrite IH. Qed.

(** What [async] returns and leaves behind. *)
Lemma async_spec (cbl : unit → result (list pyval))
    (f : pyval → result pyval) (self : DBManager) (os : OS) :
  async cbl f self os =
    match cbl tt with
    | Raise e =>
        (Raise e, self,
         {| os_pipes := os_pipes os ++
              [{| pipe_buffer := []; pipe_senders := 1 |}];
            os_procs := os_procs os |})
    | Return it =>
        (Return (length (os_pipes os), length (os_procs os)),
         set_processes self (processes self ++ [length (os_procs os)]),
         {| os_pipes := os_pipes os ++
              [{| pipe_buffer := []; pipe_senders := 1 |}];
            os_procs := os_procs os ++
              [{| proc_it := it; proc_pipe := length (os_pipes os);
                  proc_fun := f; proc_state := Running;
                  proc_sent := [] |}] |})
    end.
Proof.
  unfold async. destruct (cbl tt) as [it|e]; [|done].
  unfold update_pipe. simpl. do 2 f_equal.
  rewrite list_alter_alter_eq.
  rewrite alter_app_r_alt by done. by rewrite Nat.sub_diag.
Qed.

(** C8, as the code has it.  [async] with a producer that yields [it]
    returns the receiving end of a new pipe and a new worker.  [run]
    catches nothing, so the worker sends [f a] for the items [a] of [it],
    in the order of [it], up to the first item for which [f] raises.  The
    worker, left to run, has then sent exactly these values and its
    sending end, the only one still open, is closed, by [run] itself or
    by the end of the process; the consumer receives exactly these
    values, in this order, and after them the end of the stream, also
    when it receives while the worker is still sending, whatever their
    turns.  When [f] returns for every item these are the values of [f]
    for all the items, as many as [it] has, and the worker has exited;
    when [f] raises for an item, they are the values for the items before
    it and no more. *)
Theorem worker_sends_until_transform_raises (it : list pyval)
    (f : pyval → result pyval) (self : DBManager) (os : OS) :
  let receiver := length (os_pipes os) in
  let process := length (os_procs os) in
  ∃ self' os1,
    async (λ _, Return it) f self os = (Return (receiver, process), self', os1) ∧
    let os2 := run (S (length it)) process os1 in
    proc_sent <$> os_procs os2 !! process = Some (outputs f it) ∧
    state_of process os2 = Some (ending f it) ∧
    os_pipes os2 !! receiver =
      Some {| pipe_buffer := outputs f it; pipe_senders := 0 |} ∧
    (recv_all (S (length it)) receiver os2).1 = (outputs f it, EOFError) ∧
    (∀ schedule,
       let rs := (interleave schedule process receiver os1).1 in
       values rs `prefix_of` outputs f it ∧
       (EOFError ∈ rs → values rs = outputs f it)) ∧
    ((∀ a, a ∈ it → ∃ v, f a = Return v) →
     Forall2 (λ a v, f a = Return v) it (outputs f it) ∧
     length (outputs f it) = length it ∧
     ending f it = Exited) ∧
    (∀ before a after e,
       it = before ++ a :: after →
       (∀ b, b ∈ before → ∃ v, f b = Return v) →
       f a = Raise e →
       outputs f it = outputs f before ∧
       length (outputs f it) = length before ∧
       ending f it = Died e).
Proof.
  intros receiver process. rewrite async_spec. eexists _, _.
  split; [reflexivity|].
  set (os1 := {| os_pipes := _; os_procs := _ |}).
  assert (Hp : os_procs os1 !! process =
               Some {| proc_it := it; proc_pipe := receiver; proc_fun := f;
                       proc_state := Running; proc_sent := [] |}).
  { subst os1 process. simpl. by rewrite list_lookup_middle. }
  assert (Hpipe : os_pipes os1 !! receiver =
                  Some {| pipe_buffer := []; pipe_senders := 1 |}).
  { subst os1 receiver. simpl. by rewrite list_lookup_middle. }
  destruct (run_completes process receiver f it os1 [] [] 1 Hp Hpipe)
    as [[rest H1] H2].
  cbn zeta. split; [by rewrite H1|]. split.
  { unfold state_of. by rewrite H1. }
  split; [exact H2|]. split.
  { apply (recv_all_closed receiver (outputs f it)); [|exact H2].
    clear. induction it as [|a it IH]; simpl; [lia|].
    destruct (f a); simpl; lia. }
  split.
  { intros schedule.
    assert (Hfeed : feeding process receiver f it [] os1).
    { eexists _, _. split; [apply Hp|]. split; [done|]. split; [done|].
      split; [apply Hpipe|]. done. }
    pose proof (interleave_feeding process receiver f it schedule [] os1 Hfeed)
      as Hrun.
    destruct (interleave schedule process receiver os1) as [rs os2].
    destruct Hrun as [(p & pp & _ & _ & _ & _ & Hacc & _) Heof].
    split; [|exact Heof]. simpl in Hacc. by eexists. }
  split; [apply outputs_all_return|].
  intros before a after e -> Hall Ha. by apply outputs_until_raise.
Qed.

(** Three threads through [get_thread_id]: all three identifiers, in
    order. *)
Lemma worker_sends_until_transform_raises_witness :
  ∃ self' os1,
    async (λ _, Return three_threads) get_thread_id rw_manager empty_os =
      (Return (0, 0), self', os1) ∧
    (recv_all 4 0 (run 4 0 os1)).1 =
      ([PyStr "1"; PyStr "2"; PyStr "1"], EOFError) ∧
    length (outputs get_thread_id three_threads) = 3.
Proof.
  destruct (worker_sends_until_transform_raises three_threads get_thread_id
              rw_manager empty_os)
    as (self' & os1 & Hasync & _ & _ & _ & Hrecv & _ & Hall & _).
  exists self', os1. split; [exact Hasync|]. split; [exact Hrecv|].
  apply Hall. intros a Ha.
  repeat (apply elem_of_cons in Ha as [->|Ha]; [by eexists|]).
  by apply elem_of_nil in Ha.
Defined.

(** C8 as stated fails: of three items the second is no thread, so
    [get_thread_id] raises for it; the worker has sent one value, not
    three, when it ends, and the consumer gets this one value and then
    the end of the stream. *)
Lemma worker_stops_when_transform_raises :
  let '(r, _, os1) :=
    async (λ _, Return mixed_items) get_thread_id rw_manager empty_os in
  let os2 := run 4 0 os1 in
  length mixed_items = 3 ∧
  r = Return (0, 0) ∧
  proc_sent <$> os_procs os2 !! 0 = Some [PyStr "1"] ∧
  state_of 0 os2 = Some (Died AttributeError) ∧
  (recv_all 4 0 os2).1 = ([PyStr "1"], EOFError) ∧
  (interleave [false; true; false; false; true; true; false; true; false]
     0 0 os1).1 =
    [Blocked; Received (PyStr "1"); Blocked; EOFError; EOFError].
Proof. repeat split. Qed.

(** ** The tracked workers *)

Lemma flush_processes (fuel : nat) (self self' : DBManager) (ix ix' : Index)
    (r : result unit) :
  flush fuel self ix = Some (r, self', ix') → processes self' = processes self.
Proof.
  unfold flush. destruct (ro self); [by intros [= _ <- _]|].
  destruct (writequeue self); [by intros [= _ <- _]|].
  destruct (Database _ _ _) as [[[]|e] db].
  - destruct (flush_loop _ _ _) as [[[r' q'] db']|]; [|done].
    by intros [= _ <- _].
  - destruct (is_NotmuchError e); by intros [= _ <- _].
Qed.

Lemma tag_processes (config : Config) (q : string) (tags : pytags)
    (remove_rest : bool) (self : DBManager) :
  processes (tag config q tags remove_rest self).2 = processes self.
Proof. unfold tag. by destruct (ro self), remove_rest. Qed.

Lemma untag_processes (config : Config) (q : string) (tags : pytags)
    (self : DBManager) :
  processes (untag config q tags self).2 = processes self.
Proof. unfold untag. by destruct (ro self). Qed.

Lemma add_tags_processes (config : Config) (tags : pytags) (t : Thread)
    (self : DBManager) :
  processes (add_tags config tags t self).2 = processes self.
Proof.
  unfold add_tags. destruct (set_truthy _); [|done].
  pose proof (tag_processes config ("thread:" +:+ _id t)
                (TagSet (set_of tags ∖ _tags t)) false self) as H.
  by destruct (tag _ _ _ _ _) as [[[]|e] m].
Qed.

Lemma remove_tags_processes (config : Config) (tags : pytags) (t : Thread)
    (self : DBManager) :
  processes (remove_tags config tags t self).2 = processes self.
Proof.
  unfold remove_tags. destruct (set_truthy _); [|done].
  pose proof (untag_processes config ("thread:" +:+ _id t) tags self) as H.
  by destruct (untag _ _ _ _) as [[[]|e] m].
Qed.

Lemma set_tags_processes (config : Config) (tags : pytags) (t : Thread)
    (self : DBManager) :
  processes (set_tags config tags t self).2 = processes self.
Proof.
  unfold set_tags. destruct (py_ne _ _); [|done].
  pose proof (tag_processes config ("thread:" +:+ _id t) tags true self) as H.
  by destruct (tag _ _ _ _ _) as [[[]|e] m].
Qed.

(** [terminate] stops its process if it is running and touches no
    other. *)
Lemma state_of_terminate (pid q : nat) (os : OS) :
  state_of pid (terminate q os) =
    if decide (q = pid) then terminated (state_of pid os)
    else state_of pid os.
Proof.
  unfold terminate, state_of, terminated.
  destruct (decide (q = pid)) as [->|Hne].
  - destruct (os_procs os !! pid) as [p|] eqn:Hq; [|by rewrite Hq].
    destruct (proc_state p) eqn:Hst; simpl.
    + rewrite list_lookup_alter_eq, Hq. simpl. by rewrite Hst.
    + by rewrite Hq; simpl; rewrite Hst.
    + by rewrite Hq; simpl; rewrite Hst.
    + by rewrite Hq; simpl; rewrite Hst.
  - destruct (os_procs os !! q) as [p|]; [|done].
    destruct (proc_state p); [|done|done|done].
    simpl. by rewrite list_lookup_alter_ne.
Qed.

Lemma terminated_idemp (st : option pstate) :
  terminated (terminated st) = terminated st.
Proof. by destruct st as [[]|]. Qed.

(** [terminate] for each process of a list: those of the list that were
    running are terminated, every other process is as before. *)
Lemma state_of_terminate_all (ps : list nat) (pid : nat) :
  ∀ os : OS,
  state_of pid (foldl (λ os p, terminate p os) os ps) =
    if decide (pid ∈ ps) then terminated (state_of pid os)
    else state_of pid os.
Proof.
  induction ps as [|q ps IH]; intros os.
  - cbn [foldl]. by rewrite decide_False by apply not_elem_of_nil.
  - cbn [foldl]. rewrite IH, state_of_terminate.
    destruct (decide (q = pid)) as [->|Hne].
    + rewrite (decide_True (P := pid ∈ pid :: ps))
        by apply list_elem_of_here.
      case_decide; [apply terminated_idemp|done].
    + destruct (decide (pid ∈ ps)) as [Hin|Hnin].
      * by rewrite decide_True by (by apply list_elem_of_further).
      * rewrite decide_False; [done|].
        intros [?|?]%elem_of_cons; congruence.
Qed.

(** [kill_search_processes] empties the list and leaves none of the
    workers that were in it running. *)
Lemma kill_search_processes_spec (self : DBManager) (os : OS) :
  processes (kill_search_processes self os).1 = [] ∧
  ∀ pid, pid ∈ processes self →
         state_of pid (kill_search_processes self os).2 ≠ Some Running.
Proof.
  split; [done|]. intros pid Hin. unfold kill_search_processes. simpl.
  rewrite state_of_terminate_all, decide_True by done.
  by destruct (state_of pid os) as [[]|].
Qed.

(** Starting a worker leaves the processes that were there as they were. *)
Lemma state_of_spawned (os : OS) (p : Process) (pipes : list Pipe)
    (pid : nat) :
  state_of pid {| os_pipes := pipes; os_procs := os_procs os ++ [p] |} =
    if decide (pid = length (os_procs os)) then Some (proc_state p)
    else state_of pid os.
Proof.
  unfold state_of. simpl. case_decide as Hd.
  - subst pid. by rewrite list_lookup_middle.
  - destruct (decide (pid < length (os_procs os))) as [Hlt|Hge].
    + by rewrite lookup_app_l.
    + rewrite !lookup_ge_None_2; [done|lia|rewrite length_app; simpl; lia].
Qed.

(** C9.  Every step of the system leaves the list of tracked workers as
    it was, but for two.  A call of [async], directly or through
    [get_threads], that starts a worker appends this new worker, which is
    running, to the list, and leaves all other processes in their state.
    [kill_search_processes] empties the list and changes nothing else of
    the manager nor the index; every worker that was in the list and was
    running is terminated by it, and every other process, tracked or not,
    is in the state it was in.  In particular a step of a worker, its
    completion included, does not change the list: a worker leaves the
    list by [kill_search_processes] only. *)
Theorem tracked_workers_change (a : action) (s s' : System) :
  step a s = Some s' →
  let tracked := processes (sys_dbman s) in
  let tracked' := processes (sys_dbman s') in
  let new := length (os_procs (sys_os s)) in
  if spawns a s then
    tracked' = tracked ++ [new] ∧
    (∀ pid, state_of pid (sys_os s') =
            if decide (pid = new) then Some Running
            else state_of pid (sys_os s))
  else if is_kill a then
    tracked' = [] ∧
    sys_dbman s' = set_processes (sys_dbman s) [] ∧
    sys_index s' = sys_index s ∧
    (∀ pid, state_of pid (sys_os s') =
            if decide (pid ∈ tracked) then terminated (state_of pid (sys_os s))
            else state_of pid (sys_os s))
  else tracked' = tracked.
Proof.
  destruct s as [m ix os]. destruct a; cbn [step spawns is_kill];
    cbn [sys_dbman sys_index sys_os].
  - destruct (flush fuel m ix) as [[[r m'] ix']|] eqn:E; [|done].
    intros [= <-]. simpl. by eapply flush_processes.
  - pose proof (tag_processes config querystring tags remove_rest m).
    destruct (tag _ _ _ _ _). by intros [= <-].
  - pose proof (untag_processes config querystring tags m).
    destruct (untag _ _ _ _). by intros [= <-].
  - destruct (query _ _ _). by intros [= <-].
  - destruct (get_thread _ _ _). by intros [= <-].
  - rewrite async_spec. destruct (cbl ()) as [it|e]; intros [= <-]; [|done].
    simpl. split; [done|]. intros pid. apply state_of_spawned.
  - unfold get_threads. destruct (query querystring m ix) as [[q|e] ix1].
    + destruct (search_threads q ix1) as [[ts|e] ix2].
      * rewrite async_spec. intros [= <-]. simpl. split; [done|].
        intros pid. apply state_of_spawned.
      * rewrite async_spec. by intros [= <-].
    + by intros [= <-].
  - unfold kill_search_processes. intros [= <-]. simpl.
    split; [done|]. split; [done|]. split; [done|].
    intros pid. apply state_of_terminate_all.
  - pose proof (add_tags_processes config tags thread m).
    destruct (add_tags _ _ _ _) as [[? ?] ?]. by intros [= <-].
  - pose proof (remove_tags_processes config tags thread m).
    destruct (remove_tags _ _ _ _) as [[? ?] ?]. by intros [= <-].
  - pose proof (set_tags_processes config tags thread m).
    destruct (set_tags _ _ _ _) as [[? ?] ?]. by intros [= <-].
  - destruct (refresh _ _ _ _) as [[? ?] ?]. by intros [= <-].
  - destruct (get_messages _ _ _) as [[? ?] ?]. by intros [= <-].
  - by intros [= <-].
  - destruct (recv _ _). by intros [= <-].
Qed.

(** [kill_search_processes] on a manager that tracks two workers, one
    that has completed and one that is still running: the list is
    emptied, the running worker is terminated, the completed one stays
    as it ended. *)
Lemma tracked_workers_change_witness :
  step CallKillSearchProcesses sys_two_workers = Some sys_two_workers_killed ∧
  processes (sys_dbman sys_two_workers) = [0; 1] ∧
  state_of 0 (sys_os sys_two_workers) = Some Exited ∧
  state_of 1 (sys_os sys_two_workers) = Some Running ∧
  processes (sys_dbman sys_two_workers_killed) = [] ∧
  state_of 0 (sys_os sys_two_workers_killed) = Some Exited ∧
  state_of 1 (sys_os sys_two_workers_killed) = Some Terminated.
Proof.
  pose proof (tracked_workers_change CallKillSearchProcesses sys_two_workers
                sys_two_workers_killed eq_refl) as (H1 & _ & _ & H4).
  split; [reflexivity|]. split; [reflexivity|]. split; [reflexivity|].
  split; [reflexivity|]. split; [exact H1|].
  split; [rewrite (H4 0)|rewrite (H4 1)]; reflexivity.
Defined.

(** A worker that has completed is still tracked: after its last step the
    worker has exited and the manager has it in its list. *)
Example completed_worker_is_still_tracked :
  state_of 0 (sys_os sys_worker_done) = Some Exited ∧
  processes (sys_dbman sys_worker_done) = [0].
Proof. split; reflexivity. Qed.

(** A second worker is appended to the list while the first, completed
    one stays in it. *)
Example second_worker_is_appended :
  (processes ∘ sys_dbman) <$> step spawn_three sys_worker_done = Some [0; 1].
Proof. reflexivity. Qed.

(** * Further properties of the module *)

(** ** The queue under [flush] *)

Lemma flush_loop_leaves_suffix (fuel : nat) (queue queue' : list WriteOp)
    (db db' : Index) (r : result unit) :
  flush_loop fuel queue db = Some (r, queue', db') →
  queue' `suffix_of` queue.
Proof.
  revert queue db. induction fuel as [|fuel IH]; [done|].
  intros queue db H. cbn [flush_loop] in H.
  destruct queue as [|item queue]; [by inversion H|].
  destruct (begin_atomic db) as [[[]|e] db1].
  - destruct (end_atomic (apply_item item db1)) as [st db2].
    destruct (negb (status_eqb st SUCCESS)).
    + by eapply IH.
    + apply suffix_cons_r. by eapply IH.
  - apply suffix_cons_r.
    destruct e; inversion H; by subst.
Qed.

(** X1.  Whatever a [flush] that ends does, it only takes commands from
    the head of the queue: the queue it leaves is a suffix of the queue
    it found, in the same order, and the rest of the manager (read-only
    flag, path, tracked workers) is as before. *)
Theorem flush_leaves_suffix (fuel : nat) (self self' : DBManager)
    (ix ix' : Index) (r : result unit) :
  flush fuel self ix = Some (r, self', ix') →
  writequeue self' `suffix_of` writequeue self ∧
  ro self' = ro self ∧ path self' = path self ∧
  processes self' = processes self.
Proof.
  unfold flush. destruct (ro self) eqn:Hro.
  { intros [= _ <- _]. by rewrite Hro. }
  destruct (writequeue self) as [|item queue] eqn:Hq.
  { intros [= _ <- _]. by rewrite Hq, Hro. }
  destruct (Database (path self) READ_WRITE ix) as [[[]|e] db].
  - destruct (flush_loop fuel (item :: queue) db) as [[[r' q'] d']|] eqn:E;
      [|done].
    intros [= _ <- _]. simpl. split; [|done].
    by eapply flush_loop_leaves_suffix.
  - destruct (is_NotmuchError e); intros [= _ <- _]; by rewrite Hq, Hro.
Qed.

(** After the failed commit of B and its repetition, nothing is left. *)
Lemma flush_leaves_suffix_witness :
  ∃ self' ix',
    flush 5 manager_ABC index_second_commit_fails =
      Some (Return tt, self', ix') ∧
    writequeue self' `suffix_of` [opA; opB; opC].
Proof.
  destruct (flush 5 manager_ABC index_second_commit_fails)
    as [[[r self'] ix']|] eqn:E; [|discriminate E].
  assert (Hr : r = Return tt).
  { vm_compute in E. by inversion E. }
  subst r. exists self', ix'. split; [reflexivity|].
  exact (proj1 (flush_leaves_suffix 5 manager_ABC self'
                  index_second_commit_fails ix' (Return tt) E)).
Defined.

(** X2.  A [flush] that returns without raising has emptied the queue. *)
Theorem flush_return_means_empty_queue (fuel : nat) (self self' : DBManager)
    (ix ix' : Index) :
  flush fuel self ix = Some (Return tt, self', ix') → writequeue self' = [].
Proof. apply flush_returns_empty. Qed.

(** The flush of [A; B; C] that succeeds. *)
Lemma flush_return_means_empty_queue_witness :
  ∃ self' ix',
    flush 4 manager_ABC index_ok = Some (Return tt, self', ix') ∧
    writequeue self' = [].
Proof.
  destruct (flush 4 manager_ABC index_ok) as [[[r self'] ix']|] eqn:E;
    [|discriminate E].
  assert (Hr : r = Return tt).
  { vm_compute in E. by inversion E. }
  subst r. exists self', ix'. split; [reflexivity|].
  exact (flush_return_means_empty_queue 4 manager_ABC self' index_ok ix' E).
Defined.

Lemma flush_loop_raise_drops (fuel : nat) (queue queue' : list WriteOp)
    (db db' : Index) (e : exception) :
  flush_loop fuel queue db = Some (Raise e, queue', db') →
  e = DatabaseError ∧
  (∃ item, (item :: queue') `suffix_of` queue) ∧
  ∃ log, idx_log db' = log ++ [EvBeginAtomic false].
Proof.
  revert queue db. induction fuel as [|fuel IH]; [done|].
  intros queue db H. cbn [flush_loop] in H.
  destruct queue as [|item queue]; [by inversion H|].
  destruct (idx_begin_fails db (idx_log db)) eqn:Hb.
  - rewrite (begin_atomic_raises db Hb) in H. inversion H. subst.
    split; [done|]. split; [by exists item|]. by eexists.
  - rewrite (begin_atomic_ok db Hb) in H.
    destruct (end_atomic _) as [st db2].
    destruct (negb (status_eqb st SUCCESS)).
    + by eapply IH.
    + destruct (IH _ _ H) as (He & [it Hs] & Hl).
      split; [done|]. split; [|done]. exists it. by apply suffix_cons_r.
Qed.

(** X3.  A [flush] that raises [DatabaseError] has lost a command: the
    last call to the index was a [begin_atomic] that failed, and the
    command it was for is in the queue no more: the queue left behind,
    with one command before it, is a suffix of the queue found. *)
Theorem flush_DatabaseError_loses_command (fuel : nat)
    (self self' : DBManager) (ix ix' : Index) :
  flush fuel self ix = Some (Raise DatabaseError, self', ix') →
  (∃ item, (item :: writequeue self') `suffix_of` writequeue self) ∧
  length (writequeue self') < length (writequeue self) ∧
  ∃ log, idx_log ix' = log ++ [EvBeginAtomic false].
Proof.
  unfold flush. destruct (ro self); [done|].
  destruct (writequeue self) as [|item queue] eqn:Hq; [done|].
  unfold Database. destruct (idx_open_fails ix READ_WRITE (idx_log ix));
    [done|].
  destruct (flush_loop fuel (item :: queue) _) as [[[r' q'] d']|] eqn:E;
    [|done].
  intros [= -> <- <-]. simpl.
  destruct (flush_loop_raise_drops _ _ _ _ _ _ E) as (_ & [it Hs] & Hl).
  split; [by exists it|]. split; [|done].
  apply suffix_length in Hs. simpl in *. lia.
Qed.

(** No transaction can be started: A is lost, B and C stay. *)
Lemma flush_DatabaseError_loses_command_witness :
  ∃ self' ix',
    flush 1 manager_ABC index_no_transaction =
      Some (Raise DatabaseError, self', ix') ∧
    writequeue self' = [opB; opC] ∧
    length (writequeue self') < 3.
Proof.
  destruct (flush 1 manager_ABC index_no_transaction)
    as [[[r self'] ix']|] eqn:E; [|discriminate E].
  assert (Hr : r = Raise DatabaseError ∧ writequeue self' = [opB; opC]).
  { vm_compute in E. by inversion E. }
  destruct Hr as [-> Hq]. exists self', ix'. split; [reflexivity|].
  split; [exact Hq|].
  exact (proj1 (proj2 (flush_DatabaseError_loses_command 1 manager_ABC self'
                         index_no_transaction ix' E))).
Defined.

(** X4.  While no commit succeeds, a [flush] of a queue that is not empty
    does not end: on a manager that is not read-only, with an index that
    opens and on which every transaction starts and none commits, the
    loop is still running after any number of turns. *)
Theorem flush_never_ends_while_commits_fail (fuel : nat) (self : DBManager)
    (ix : Index) :
  ro self = false →
  writequeue self ≠ [] →
  idx_open_fails ix READ_WRITE (idx_log ix) = false →
  (∀ log, idx_begin_fails ix log = false) →
  (∀ log, idx_end_status ix log ≠ SUCCESS) →
  flush fuel self ix = None.
Proof.
  intros Hro Hq Ho Hb He. unfold flush, Database. rewrite Hro, Ho.
  destruct (writequeue self) as [|item queue]; [done|].
  rewrite flush_loop_never_commits; [done|done|apply Hb|].
  intros log _. apply He.
Qed.

Lemma flush_never_ends_while_commits_fail_witness :
  flush 1000 manager_ABC index_never_commits = None.
Proof.
  apply (flush_never_ends_while_commits_fail 1000 manager_ABC
           index_never_commits); [reflexivity|discriminate|reflexivity|
                                  reflexivity|discriminate].
Defined.

(** X5.  After a [flush] that returned, another [flush] does nothing: it
    returns at once, with the same manager and without a call to the
    index. *)
Theorem flush_again_does_nothing (fuel fuel' : nat) (self self' : DBManager)
    (ix ix' : Index) :
  flush fuel self ix = Some (Return tt, self', ix') →
  flush fuel' self' ix' = Some (Return tt, self', ix').
Proof.
  intros H. pose proof (flush_returns_empty _ _ _ _ _ H) as Hq.
  assert (Hro : ro self' = false).
  { revert H. unfold flush. destruct (ro self) eqn:Hro; [done|].
    destruct (writequeue self); [by intros [= <- _]|].
    destruct (Database _ _ _) as [[[]|e] db].
    - destruct (flush_loop _ _ _) as [[[r' q'] d']|]; [|done].
      by intros [= _ <- _].
    - by destruct (is_NotmuchError e). }
  unfold flush. by rewrite Hro, Hq.
Qed.

Lemma flush_again_does_nothing_witness :
  ∃ self' ix',
    flush 4 manager_ABC index_ok = Some (Return tt, self', ix') ∧
    flush 0 self' ix' = Some (Return tt, self', ix').
Proof.
  destruct (flush 4 manager_ABC index_ok) as [[[r self'] ix']|] eqn:E;
    [|discriminate E].
  assert (Hr : r = Return tt).
  { vm_compute in E. by inversion E. }
  subst r. exists self', ix'. split; [reflexivity|].
  exact (flush_again_does_nothing 4 0 manager_ABC self' index_ok ix' E).
Defined.

(** ** What a command does to the tags *)

Lemma tags_after_idemp (cmd : string) (tags : pytags) (old : gset string) :
  tags_after cmd tags (tags_after cmd tags old) = tags_after cmd tags old.
Proof.
  unfold tags_after. repeat case_match; set_solver.
Qed.

Lemma foldl_alter_lookup (f : gset string → gset string)
    (msgs : list string) (m : string) :
  (∀ s, f (f s) = f s) →
  ∀ store : gmap string (gset string),
  foldl (λ st msg, alter f msg st) store msgs !! m =
    if decide (m ∈ msgs) then f <$> store !! m else store !! m.
Proof.
  intros Hf. induction msgs as [|x msgs IH]; intros store.
  - cbn [foldl]. by rewrite decide_False by apply not_elem_of_nil.
  - cbn [foldl]. rewrite IH.
    destruct (decide (x = m)) as [->|Hne].
    + rewrite lookup_alter_eq, (decide_True (P := m ∈ m :: msgs))
        by apply list_elem_of_here.
      case_decide; [|done]. rewrite <- option_fmap_compose.
      destruct (store !! m); simpl; by rewrite ?Hf.
    + rewrite lookup_alter_ne by done.
      destruct (decide (m ∈ msgs)) as [Hin|Hnin].
      * by rewrite decide_True by (by apply list_elem_of_further).
      * rewrite decide_False; [done|].
        intros [?|?]%elem_of_cons; congruence.
Qed.

(** X6.  The [flush] of one command, on an index that opens and on which
    the transaction commits: the tags of every message that matches the
    query string of the command become what the command asks for (the
    old tags and the given ones for ['tag'], the given ones only for
    ['set'], the old ones without the given ones for ['untag']), and the
    tags of every other message stay as they were. *)
Theorem flush_one_command_effect (cmd querystring : string) (tags : pytags)
    (sync : bool) (self : DBManager) (ix : Index) :
  ro self = false →
  writequeue self = [(cmd, querystring, tags, sync)] →
  idx_open_fails ix READ_WRITE (idx_log ix) = false →
  (∀ log, idx_begin_fails ix log = false) →
  (∀ log, idx_end_status ix log = SUCCESS) →
  ∃ ix',
    flush 2 self ix = Some (Return tt, set_writequeue self [], ix') ∧
    ∀ msg,
      idx_tags ix' !! msg =
        if decide (msg ∈ idx_messages ix (idx_tags ix) querystring)
        then tags_after cmd tags <$> idx_tags ix !! msg
        else idx_tags ix !! msg.
Proof.
  intros Hro Hq Ho Hb He.
  set (db0 := with_log ix (EvOpen (path self) READ_WRITE true)).
  exists (transaction (cmd, querystring, tags, sync) db0). split.
  - unfold flush, Database. rewrite Hro, Hq, Ho.
    change 2 with (S (length [(cmd, querystring, tags, sync)])).
    by rewrite flush_loop_all_commit.
  - intros msg.
    destruct (transaction_spec (cmd, querystring, tags, sync) db0)
      as (_ & _ & _ & Ht); [apply Hb|apply He|].
    rewrite Ht. unfold store_after, matching. simpl.
    apply foldl_alter_lookup. intros s. apply tags_after_idemp.
Qed.

(** Taking inbox off the two messages of thread 1. *)
Lemma flush_one_command_effect_witness :
  ∃ ix',
    flush 2 (set_writequeue rw_manager [opB]) index_ok =
      Some (Return tt, rw_manager, ix') ∧
    idx_tags ix' !! "m2" = Some {[ "unread" ]}.
Proof.
  destruct (flush_one_command_effect "untag" "thread:1" (TagList ["inbox"])
              false (set_writequeue rw_manager [opB]) index_ok
              eq_refl eq_refl eq_refl (λ _, eq_refl) (λ _, eq_refl))
    as (ix' & Hrun & Htags).
  exists ix'. split; [exact Hrun|].
  rewrite (Htags "m2"). vm_compute. reflexivity.
Defined.

(** ** Enqueueing and flushing *)

(** X7.  A run of calls of [tag] and [untag] on a manager that is not
    read-only appends the commands asked for to the queue, in the order
    of the calls; on a read-only manager the queue stays as it was. *)
Theorem enqueue_all_appends_in_order (config : Config)
    (cs : list enqueue_call) (self : DBManager) :
  writequeue (enqueue_all config cs self) =
    if ro self then writequeue self
    else writequeue self ++ (command_of config <$> cs).
Proof.
  revert self. induction cs as [|c cs IH]; intros self.
  - unfold enqueue_all. simpl. rewrite app_nil_r. by destruct (ro self).
  - unfold enqueue_all in *. cbn [foldl]. rewrite IH.
    destruct c as [q tags [|]|q tags]; unfold enqueue, tag, untag;
      destruct (ro self) eqn:Hro; simpl; rewrite ?Hro; try done;
      by rewrite <- app_assoc.
Qed.

Lemma flush_loop_all_commit_log (queue : list WriteOp) :
  ∀ db : Index,
  (∀ log, idx_begin_fails db log = false) →
  (∀ log, idx_end_status db log = SUCCESS) →
  idx_log (foldl (λ d item, transaction item d) db queue) =
    idx_log db ++ transactions_events queue db.
Proof.
  induction queue as [|item queue IH]; intros db Hb He.
  - simpl. by rewrite app_nil_r.
  - cbn [foldl transactions_events].
    destruct (transaction_spec item db Hb He) as ((_ & Hb' & He' & _) & Hl & _).
    rewrite IH.
    + rewrite Hl. by rewrite <- app_assoc.
    + intros log. by rewrite Hb'.
    + intros log. by rewrite He'.
Qed.

(** X8.  Whatever the length of the queue, when the index opens and every
    transaction starts and commits, one [flush] returns, leaves the queue
    empty, and has made, after the open, one committed transaction for
    each command, in the order of the queue. *)
Theorem flush_applies_whole_queue_in_order (self : DBManager) (ix : Index) :
  ro self = false →
  idx_open_fails ix READ_WRITE (idx_log ix) = false →
  (∀ log, idx_begin_fails ix log = false) →
  (∀ log, idx_end_status ix log = SUCCESS) →
  ∃ ix',
    flush (S (length (writequeue self))) self ix =
      Some (Return tt, set_writequeue self [], ix') ∧
    (writequeue self ≠ [] →
     new_events ix ix' =
       EvOpen (path self) READ_WRITE true ::
       transactions_events (writequeue self)
         (with_log ix (EvOpen (path self) READ_WRITE true))).
Proof.
  intros Hro Ho Hb He. unfold flush, Database. rewrite Hro, Ho.
  destruct (writequeue self) as [|item queue] eqn:Hq.
  { exists ix. split; [|done]. f_equal. f_equal. f_equal.
    destruct self. simpl in *. by subst. }
  set (db0 := with_log ix (EvOpen (path self) READ_WRITE true)).
  rewrite flush_loop_all_commit by done.
  eexists. split; [reflexivity|]. intros _. unfold new_events.
  rewrite flush_loop_all_commit_log by done.
  subst db0. simpl. by rewrite <- app_assoc, drop_app_length.
Qed.

(** Two calls, then the flush. *)
Lemma flush_applies_whole_queue_in_order_witness :
  let self :=
    enqueue_all demo_config
      [TagCall "thread:1" (TagList ["a"]) false;
       UntagCall "thread:1" (TagList ["inbox"])] rw_manager in
  outcome (flush 3 self index_ok) =
    Some (Return tt, [],
          [EvOpen "/mail" READ_WRITE true;
           EvBeginAtomic true;
           EvCreateQuery "thread:1"; EvSearchMessages "thread:1";
           EvFreeze "m1"; EvAddTag "m1" "a" true; EvThaw "m1";
           EvFreeze "m2"; EvAddTag "m2" "a" true; EvThaw "m2";
           EvEndAtomic SUCCESS;
           EvBeginAtomic true;
           EvCreateQuery "thread:1"; EvSearchMessages "thread:1";
           EvFreeze "m1"; EvRemoveTag "m1" "inbox" true; EvThaw "m1";
           EvFreeze "m2"; EvRemoveTag "m2" "inbox" true; EvThaw "m2";
           EvEndAtomic SUCCESS]).
Proof.
  intros self.
  destruct (flush_applies_whole_queue_in_order self index_ok
              eq_refl eq_refl (λ _, eq_refl) (λ _, eq_refl))
    as (ix' & Hrun & Hlog).
  change (S (length (writequeue self))) with 3 in Hrun.
  rewrite Hrun. unfold outcome. simpl.
  assert (Hne : writequeue self ≠ []) by discriminate.
  specialize (Hlog Hne). unfold new_events in Hlog. simpl in Hlog.
  rewrite drop_0 in Hlog. rewrite Hlog. reflexivity.
Defined.

(** ** The local tags of a thread *)

Lemma py_ne_true (a b : pytags) : py_ne a b = true ↔ a ≠ b.
Proof.
  unfold py_ne, py_eq. rewrite negb_true_iff.
  destruct a as [l1|s1], b as [l2|s2]; try (split; [congruence|done]).
  - rewrite bool_decide_eq_false. split; congruence.
  - rewrite bool_decide_eq_false. split; congruence.
Qed.

Lemma union_new_tags (old new : gset string) :
  old ∪ (new ∖ old) = old ∪ new.
Proof.
  apply set_eq. intros x. rewrite !elem_of_union, elem_of_difference.
  destruct (decide (x ∈ old)); naive_solver.
Qed.

Lemma difference_met_tags (old given : gset string) :
  old ∖ (given ∩ old) = old ∖ given.
Proof.
  apply set_eq. intros x.
  rewrite !elem_of_difference, elem_of_intersection. naive_solver.
Qed.

(** X9.  [add_tags] with tags that are not all there already, on a
    manager that is not read-only: one ['tag'] command is appended to the
    queue, for the query [thread:<id>] and carrying exactly the tags that
    were not there, and the local tags become the old ones together with
    them.  On a read-only manager [DatabaseROError] is raised and neither
    the queue nor the local tags change. *)
Theorem add_tags_enqueues_new_tags (config : Config) (tags : pytags)
    (self : Thread) (dbman : DBManager) :
  set_of tags ∖ _tags self ≠ ∅ →
  add_tags config tags self dbman =
    if ro dbman then (Raise DatabaseROError, self, dbman)
    else
      (Return tt,
       set_tags_field self (_tags self ∪ set_of tags),
       set_writequeue dbman
         (writequeue dbman ++
          [("tag", "thread:" +:+ _id self,
            TagSet (set_of tags ∖ _tags self),
            maildir_synchronize_flags config)])).
Proof.
  intros H. unfold add_tags, tag.
  rewrite (proj2 (set_truthy_true _) H). destruct (ro dbman); [done|].
  by rewrite union_new_tags.
Qed.

(** Adding x and y to a thread tagged x: the command carries y. *)
Lemma add_tags_enqueues_new_tags_witness :
  add_tags demo_config (TagList ["x"; "y"]) thread_x rw_manager =
    (Return tt, set_tags_field thread_x {[ "x"; "y" ]},
     set_writequeue rw_manager
       [("tag", "thread:1", TagSet {[ "y" ]}, true)]).
Proof.
  assert (H : set_of (TagList ["x"; "y"]) ∖ _tags thread_x ≠ ∅)
    by (vm_compute; discriminate).
  rewrite (add_tags_enqueues_new_tags demo_config (TagList ["x"; "y"])
             thread_x rw_manager H).
  vm_compute. reflexivity.
Defined.

(** X10.  [set_tags] with a collection that differs from the set of local
    tags (as every list does), on a manager that is not read-only: one
    ['set'] command is appended to the queue, for the query
    [thread:<id>] and carrying the collection as it was passed, and the
    local tags become its members.  On a read-only manager
    [DatabaseROError] is raised and nothing changes. *)
Theorem set_tags_enqueues_replacement (config : Config) (tags : pytags)
    (self : Thread) (dbman : DBManager) :
  tags ≠ TagSet (_tags self) →
  set_tags config tags self dbman =
    if ro dbman then (Raise DatabaseROError, self, dbman)
    else
      (Return tt, set_tags_field self (set_of tags),
       set_writequeue dbman
         (writequeue dbman ++
          [("set", "thread:" +:+ _id self, tags,
            maildir_synchronize_flags config)])).
Proof.
  intros H. unfold set_tags, tag.
  rewrite (proj2 (py_ne_true _ _) H). by destruct (ro dbman).
Qed.

(** Replacing the tags x and y by a. *)
Lemma set_tags_enqueues_replacement_witness :
  set_tags demo_config (TagSet {[ "a" ]}) thread_xy rw_manager =
    (Return tt, set_tags_field thread_xy {[ "a" ]},
     set_writequeue rw_manager
       [("set", "thread:1", TagSet {[ "a" ]}, true)]).
Proof.
  assert (H : TagSet {[ "a" ]} ≠ TagSet (_tags thread_xy)).
  { intros H. apply (f_equal (λ t, bool_decide ("x" ∈ set_of t))) in H.
    vm_compute in H. discriminate H. }
  rewrite (set_tags_enqueues_replacement demo_config (TagSet {[ "a" ]})
             thread_xy rw_manager H).
  reflexivity.
Defined.

(** The local tags after each of the three methods. *)
Lemma local_tags_after (config : Config) (tags : pytags)
    (self : Thread) (dbman : DBManager) :
  (match add_tags config tags self dbman with
   | (Return _, self', _) => _tags self' = _tags self ∪ set_of tags
   | (Raise _, self', dbman') => self' = self ∧ dbman' = dbman
   end) ∧
  (match remove_tags config tags self dbman with
   | (Return _, self', _) => _tags self' = _tags self ∖ set_of tags
   | (Raise _, self', dbman') => self' = self ∧ dbman' = dbman
   end) ∧
  (match set_tags config tags self dbman with
   | (Return _, self', _) => _tags self' = set_of tags
   | (Raise _, self', dbman') => self' = self ∧ dbman' = dbman
   end).
Proof.
  split; [|split].
  - unfold add_tags, tag.
    destruct (set_truthy _) eqn:E.
    + destruct (ro dbman); [done|]. simpl. apply union_new_tags.
    + apply set_truthy_false in E. simpl.
      by rewrite <- (union_new_tags (_tags self)), E, union_empty_r_L.
  - unfold remove_tags, untag.
    destruct (set_truthy _) eqn:E.
    + destruct (ro dbman); [done|]. simpl. apply difference_met_tags.
    + apply set_truthy_false in E. simpl.
      by rewrite <- (difference_met_tags (_tags self)), E,
        difference_empty_L.
  - unfold set_tags, tag.
    destruct (py_ne _ _) eqn:E.
    + by destruct (ro dbman).
    + simpl. unfold py_ne in E. apply negb_false_iff in E.
      unfold py_eq in E. destruct tags as [l|s]; [done|].
      by apply bool_decide_eq_true in E.
Qed.

(** X11.  Whenever one of the three methods returns, whether it enqueued
    a command or not, the local tags are the old ones together with the
    given ones for [add_tags], the old ones without the given ones for
    [remove_tags], the given ones for [set_tags]; whenever it raises, the
    thread view and the manager are as before. *)
Theorem local_tags_after_change (config : Config) (tags : pytags)
    (self : Thread) (dbman : DBManager) :
  (match add_tags config tags self dbman with
   | (Return _, self', _) => _tags self' = _tags self ∪ set_of tags
   | (Raise _, self', dbman') => self' = self ∧ dbman' = dbman
   end) ∧
  (match remove_tags config tags self dbman with
   | (Return _, self', _) => _tags self' = _tags self ∖ set_of tags
   | (Raise _, self', dbman') => self' = self ∧ dbman' = dbman
   end) ∧
  (match set_tags config tags self dbman with
   | (Return _, self', _) => _tags self' = set_of tags
   | (Raise _, self', dbman') => self' = self ∧ dbman' = dbman
   end).
Proof. apply local_tags_after. Qed.

(** X12.  Calling [add_tags], or [remove_tags], a second time with the
    same tags right after a call that returned changes nothing: no
    command is enqueued and the local tags stay. *)
Theorem repeated_change_does_nothing (config : Config) (tags : pytags)
    (self self' : Thread) (dbman dbman' : DBManager) :
  (add_tags config tags self dbman = (Return tt, self', dbman') →
   add_tags config tags self' dbman' = (Return tt, self', dbman')) ∧
  (remove_tags config tags self dbman = (Return tt, self', dbman') →
   remove_tags config tags self' dbman' = (Return tt, self', dbman')).
Proof.
  split; intros H.
  - apply add_tags_empty_delta.
    pose proof (local_tags_after config tags self dbman) as (Ha & _).
    rewrite H in Ha. rewrite Ha. generalize (set_of tags). set_solver.
  - apply remove_tags_empty_delta.
    pose proof (local_tags_after config tags self dbman) as (_ & Hr & _).
    rewrite H in Hr. rewrite Hr. generalize (set_of tags). set_solver.
Qed.

Lemma repeated_change_does_nothing_witness :
  let '(_, self', dbman') :=
    add_tags demo_config (TagList ["x"; "y"]) thread_x rw_manager in
  writequeue dbman' = [("tag", "thread:1", TagSet {[ "y" ]}, true)] ∧
  add_tags demo_config (TagList ["x"; "y"]) self' dbman' =
    (Return tt, self', dbman').
Proof.
  destruct (add_tags demo_config (TagList ["x"; "y"]) thread_x rw_manager)
    as [[r self'] dbman'] eqn:E.
  assert (Hr : r = Return tt ∧
               writequeue dbman' =
                 [("tag", "thread:1", TagSet {[ "y" ]}, true)]).
  { vm_compute in E. by inversion E. }
  destruct Hr as [-> Hq]. split; [exact Hq|].
  exact (proj1 (repeated_change_does_nothing demo_config
                  (TagList ["x"; "y"]) thread_x self' rw_manager dbman') E).
Defined.

(** X13.  On a manager that is not read-only, [add_tags] followed by
    [remove_tags] with the same tags both return and leave the thread
    with its old local tags without the given ones: tags that were not
    there before are gone again, and tags that were there are removed. *)
Theorem add_then_remove_tags (config : Config) (tags : pytags)
    (self : Thread) (dbman : DBManager) :
  ro dbman = false →
  ∃ self1 dbman1 self2 dbman2,
    add_tags config tags self dbman = (Return tt, self1, dbman1) ∧
    remove_tags config tags self1 dbman1 = (Return tt, self2, dbman2) ∧
    _tags self2 = _tags self ∖ set_of tags ∧
    (set_of tags ## _tags self → _tags self2 = _tags self) ∧
    writequeue dbman `prefix_of` writequeue dbman2.
Proof.
  intros Hro.
  assert (Hadd : ∃ self1 dbman1,
    add_tags config tags self dbman = (Return tt, self1, dbman1) ∧
    ro dbman1 = false ∧
    writequeue dbman `prefix_of` writequeue dbman1).
  { unfold add_tags, tag. rewrite Hro. destruct (set_truthy _).
    - eexists _, _. split; [done|]. split; [done|]. by eexists.
    - eexists _, _. by rewrite Hro. }
  destruct Hadd as (self1 & dbman1 & Hadd & Hro1 & Hp1).
  assert (Hrem : ∃ self2 dbman2,
    remove_tags config tags self1 dbman1 = (Return tt, self2, dbman2) ∧
    writequeue dbman1 `prefix_of` writequeue dbman2).
  { unfold remove_tags, untag. rewrite Hro1. destruct (set_truthy _).
    - eexists _, _. split; [done|]. by eexists.
    - by eexists _, _. }
  destruct Hrem as (self2 & dbman2 & Hrem & Hp2).
  exists self1, dbman1, self2, dbman2.
  pose proof (local_tags_after config tags self dbman) as (Ha & _).
  pose proof (local_tags_after config tags self1 dbman1)
    as (_ & Hr & _).
  rewrite Hadd in Ha. rewrite Hrem in Hr.
  split; [done|]. split; [done|].
  split; [rewrite Hr, Ha; generalize (set_of tags); set_solver|].
  split; [rewrite Hr, Ha; generalize (set_of tags); set_solver|].
  by etrans.
Qed.

(** Tagging a thread tagged x and y with z, and taking z off again. *)
Lemma add_then_remove_tags_witness :
  ∃ self1 dbman1 self2 dbman2,
    add_tags demo_config (TagList ["z"]) thread_xy rw_manager =
      (Return tt, self1, dbman1) ∧
    remove_tags demo_config (TagList ["z"]) self1 dbman1 =
      (Return tt, self2, dbman2) ∧
    _tags self2 = _tags thread_xy.
Proof.
  destruct (add_then_remove_tags demo_config (TagList ["z"]) thread_xy
              rw_manager eq_refl)
    as (self1 & dbman1 & self2 & dbman2 & H1 & H2 & _ & H4 & _).
  exists self1, dbman1, self2, dbman2. split; [exact H1|].
  split; [exact H2|]. apply H4. vm_compute.
  intros x Hx. by repeat case_match.
Defined.

(** X14.  [get_tags] gives the local tags as a list in increasing order:
    every tag of the thread once and nothing else; and it is the only
    sorted list of these tags, so the order in which the set is listed
    before sorting does not show. *)
Theorem get_tags_sorted (self : Thread) :
  StronglySorted String.le (get_tags self) ∧
  NoDup (get_tags self) ∧
  (∀ t, t ∈ get_tags self ↔ t ∈ _tags self) ∧
  (∀ l, l ≡ₚ elements (_tags self) → Sorted String.le l → l = get_tags self).
Proof.
  unfold get_tags. split; [apply StronglySorted_merge_sort; apply _|].
  split.
  { rewrite merge_sort_Permutation. apply NoDup_elements. }
  split.
  { intros t. rewrite merge_sort_Permutation. apply elem_of_elements. }
  intros l Hp Hs. apply (Sorted_unique String.le); [done| |].
  - apply Sorted_merge_sort. apply _.
  - by rewrite merge_sort_Permutation.
Qed.

(** The tags b, a, b of the index come out as a, b. *)
Example get_tags_forest_thread :
  get_tags (Thread_init rw_manager forest_thread) = ["a"; "b"].
Proof. vm_compute. reflexivity. Qed.

(** ** The message tree *)

(** X15.  The first [get_messages] on a thread view whose mapping is
    empty, when the index opens and finds the thread, and the
    identifiers of the messages of the thread are distinct: the mapping
    gets one key for every message of the thread, anywhere in the tree,
    with the wrappers of its direct replies in their order as value; the
    wrappers of the top-level messages are appended, in their order, to
    the list of top-level messages; the mapping is what is returned, and
    the tags and the other fields of the view stay. *)
Theorem get_messages_builds_tree (self : Thread) (dbman : DBManager)
    (ix : Index) (thread : NThread) (others : list NThread) :
  _messages self = [] →
  idx_open_fails ix READ_ONLY (idx_log ix) = false →
  idx_threads ix ("thread:" +:+ _id self) = Return (thread :: others) →
  NoDup (forest_ids (nt_toplevel_messages thread)) →
  ∃ ix',
    get_messages self dbman ix =
      (Return (forest_entries (nt_toplevel_messages thread)),
       set_tree self (forest_entries (nt_toplevel_messages thread))
         (_toplevel_messages self ++ (wrap <$> nt_toplevel_messages thread)),
       ix') ∧
    (∀ m, m ∈ forest_nodes (nt_toplevel_messages thread) →
          (wrap m, wrap <$> replies_of m)
            ∈ forest_entries (nt_toplevel_messages thread)) ∧
    new_events ix ix' =
      [EvOpen (path dbman) READ_ONLY true;
       EvCreateQuery ("thread:" +:+ _id self);
       EvSearchThreads ("thread:" +:+ _id self)].
Proof. apply get_messages_first. Qed.

(** The tree of [forest_thread]. *)
Lemma get_messages_builds_tree_witness :
  let t := Thread_init rw_manager forest_thread in
  (get_messages t rw_manager index_forest).1.1 =
    Return
      [({| get_message_id := "a" |},
        [{| get_message_id := "b" |}; {| get_message_id := "d" |}]);
       ({| get_message_id := "b" |}, [{| get_message_id := "c" |}]);
       ({| get_message_id := "c" |}, []);
       ({| get_message_id := "d" |}, []);
       ({| get_message_id := "e" |}, [])] ∧
  _toplevel_messages (get_messages t rw_manager index_forest).1.2 =
    [{| get_message_id := "a" |}; {| get_message_id := "e" |}].
Proof.
  intros t.
  assert (Hnd : NoDup (forest_ids (nt_toplevel_messages forest_thread))).
  { apply (bool_decide_unpack _). vm_compute. exact I. }
  destruct (get_messages_builds_tree t rw_manager index_forest forest_thread
              [] eq_refl eq_refl eq_refl Hnd) as (ix' & Hrun & _).
  rewrite Hrun. split; reflexivity.
Defined.

Lemma find_replies_found (d : msgdict) (M : Message)
    (children : list Message) :
  NoDup (dict_ids d) → (M, children) ∈ d →
  find_replies (get_message_id M) d = Some children.
Proof.
  induction d as [|[K w] d IH]; intros Hnd Hin; [by apply elem_of_nil in Hin|].
  unfold dict_ids in Hnd. rewrite fmap_cons in Hnd.
  apply NoDup_cons in Hnd as [Hk Hnd]. cbn [find_replies].
  apply elem_of_cons in Hin as [[= <- <-]|Hin].
  - by rewrite String.eqb_refl.
  - destruct (String.eqb_spec (get_message_id K) (get_message_id M))
      as [Heq|Hne]; [|by apply IH].
    exfalso. apply Hk. simpl. rewrite Heq.
    apply list_elem_of_fmap. by exists (M, children).
Qed.

Lemma find_replies_absent (d : msgdict) (mid : string) :
  mid ∉ dict_ids d → find_replies mid d = None.
Proof.
  induction d as [|[K w] d IH]; intros Hnin; [done|].
  unfold dict_ids in Hnin. rewrite fmap_cons in Hnin.
  apply not_elem_of_cons in Hnin as [Hne Hnin]. cbn [find_replies].
  destruct (String.eqb_spec (get_message_id K) mid) as [Heq|_].
  - simpl in Hne. congruence.
  - by apply IH.
Qed.

(** X16.  [get_replies_to] on a thread view whose mapping is empty, under
    the conditions of X15: for a message with the identifier of a
    message of the thread, anywhere in the tree, the result is the list
    of the wrappers of the direct replies of that message, in their
    order; for a message whose identifier is not in the thread it is
    [None]. *)
Theorem get_replies_to_direct_replies (msg : Message) (self : Thread)
    (dbman : DBManager) (ix : Index) (thread : NThread)
    (others : list NThread) :
  _messages self = [] →
  idx_open_fails ix READ_ONLY (idx_log ix) = false →
  idx_threads ix ("thread:" +:+ _id self) = Return (thread :: others) →
  NoDup (forest_ids (nt_toplevel_messages thread)) →
  (∀ m, m ∈ forest_nodes (nt_toplevel_messages thread) →
        get_message_id msg = message_id_of m →
        (get_replies_to msg self dbman ix).1.1 =
          Return (Some (wrap <$> replies_of m))) ∧
  (get_message_id msg ∉ forest_ids (nt_toplevel_messages thread) →
   (get_replies_to msg self dbman ix).1.1 = Return None).
Proof.
  intros Hm Ho Ht Hnd.
  destruct (get_messages_first self dbman ix thread others Hm Ho Ht Hnd)
    as (ix' & Hrun & Hentries & _).
  unfold get_replies_to. rewrite Hrun. cbn [fst]. split.
  - intros m Hin Hid. f_equal.
    replace (get_message_id msg) with (get_message_id (wrap m))
      by (by destruct m).
    apply find_replies_found; [|by apply Hentries].
    by rewrite dict_ids_forest_entries.
  - intros Hnin. f_equal. apply find_replies_absent.
    by rewrite dict_ids_forest_entries.
Qed.

(** The replies to b, in the middle of the tree, and to an unknown
    message. *)
Lemma get_replies_to_direct_replies_witness :
  let t := Thread_init rw_manager forest_thread in
  (get_replies_to {| get_message_id := "b" |} t rw_manager index_forest).1.1 =
    Return (Some [{| get_message_id := "c" |}]) ∧
  (get_replies_to {| get_message_id := "q" |} t rw_manager index_forest).1.1 =
    Return None.
Proof.
  intros t.
  assert (Hnd : NoDup (forest_ids (nt_toplevel_messages forest_thread))).
  { apply (bool_decide_unpack _). vm_compute. exact I. }
  split.
  - destruct (get_replies_to_direct_replies {| get_message_id := "b" |} t
                rw_manager index_forest forest_thread [] eq_refl eq_refl
                eq_refl Hnd) as [Hfound _].
    apply (Hfound (NMsg "b" (Some [NMsg "c" None]))); [|reflexivity].
    apply list_elem_of_further, list_elem_of_here.
  - destruct (get_replies_to_direct_replies {| get_message_id := "q" |} t
                rw_manager index_forest forest_thread [] eq_refl eq_refl
                eq_refl Hnd) as [_ Habsent].
    apply Habsent. apply (bool_decide_unpack _). vm_compute. exact I.
Defined.

Lemma get_messages_result (self self' : Thread) (dbman : DBManager)
    (ix ix' : Index) (d : msgdict) :
  get_messages self dbman ix = (Return d, self', ix') → _messages self' = d.
Proof.
  unfold get_messages. destruct (dict_empty (_messages self)).
  - destruct (query _ dbman ix) as [[q|e] ix1]; [|done].
    destruct (search_threads q ix1) as [[ts|e] ix2]; [|done].
    destruct (next ts) as [t|e]; [|done].
    destruct (accumulate_toplevel _ _ _) as [[[]|e] [acc toplevel]]; [|done].
    by intros [= <- <- _].
  - by intros [= <- <- _].
Qed.

(** X17.  Once [get_messages] has returned a mapping that is not empty,
    every later [get_messages] on the view returns the same mapping and
    leaves the view as it is, without a call to the index, whatever the
    state of the index. *)
Theorem get_messages_again_is_cached (self self' : Thread)
    (dbman dbman2 : DBManager) (ix ix' ix2 : Index) (d : msgdict) :
  get_messages self dbman ix = (Return d, self', ix') →
  d ≠ [] →
  get_messages self' dbman2 ix2 = (Return d, self', ix2).
Proof.
  intros H Hd. pose proof (get_messages_result _ _ _ _ _ _ H) as Hm.
  rewrite get_messages_cached; rewrite Hm; done.
Qed.

(** The tree is kept even when the index can no longer be opened. *)
Lemma get_messages_again_is_cached_witness :
  ∃ d self' ix',
    get_messages thread_xy rw_manager index_ok = (Return d, self', ix') ∧
    get_messages self' rw_manager index_unreadable =
      (Return d, self', index_unreadable).
Proof.
  destruct (get_messages thread_xy rw_manager index_ok)
    as [[r self'] ix'] eqn:E.
  assert (Hr : ∃ d, r = Return d ∧ d ≠ []).
  { vm_compute in E. inversion E. by eexists. }
  destruct Hr as (d & -> & Hd). exists d, self', ix'.
  split; [reflexivity|].
  exact (get_messages_again_is_cached thread_xy self' rw_manager rw_manager
           index_ok ix' index_unreadable d E Hd).
Defined.

(** X18.  For a thread that the index shows without messages the mapping
    stays empty, so [get_messages] asks the index again each time it is
    called: each call opens the index, makes the query and searches. *)
Theorem get_messages_of_empty_thread_asks_again (self : Thread)
    (dbman : DBManager) (ix : Index) (thread : NThread)
    (others : list NThread) :
  _messages self = [] →
  (∀ log, idx_open_fails ix READ_ONLY log = false) →
  idx_threads ix ("thread:" +:+ _id self) = Return (thread :: others) →
  nt_toplevel_messages thread = [] →
  ∃ ix1 ix2,
    get_messages self dbman ix = (Return [], self, ix1) ∧
    get_messages self dbman ix1 = (Return [], self, ix2) ∧
    new_events ix ix1 =
      [EvOpen (path dbman) READ_ONLY true;
       EvCreateQuery ("thread:" +:+ _id self);
       EvSearchThreads ("thread:" +:+ _id self)] ∧
    new_events ix1 ix2 = new_events ix ix1.
Proof.
  intros Hm Ho Ht Htop.
  assert (Hone : ∀ ix0 : Index,
    idx_open_fails ix0 = idx_open_fails ix →
    idx_threads ix0 = idx_threads ix →
    ∃ ix1, get_messages self dbman ix0 = (Return [], self, ix1) ∧
      idx_open_fails ix1 = idx_open_fails ix ∧
      idx_threads ix1 = idx_threads ix ∧
      new_events ix0 ix1 =
        [EvOpen (path dbman) READ_ONLY true;
         EvCreateQuery ("thread:" +:+ _id self);
         EvSearchThreads ("thread:" +:+ _id self)]).
  { intros ix0 Ho0 Ht0. unfold get_messages, query, Database.
    rewrite Hm, Ho0, Ho. cbn [dict_empty]. unfold search_threads, create_query.
    cbn [idx_threads with_log]. rewrite Ht0, Ht. cbn [next]. rewrite Htop.
    cbn [accumulate_toplevel]. eexists. split.
    - f_equal. f_equal. destruct self. simpl in *. by subst.
    - split; [done|]. split; [done|]. unfold new_events. simpl.
      rewrite <- !app_assoc. by rewrite drop_app_length. }
  destruct (Hone ix eq_refl eq_refl) as (ix1 & H1 & Ho1 & Ht1 & Hl1).
  destruct (Hone ix1 Ho1 Ht1) as (ix2 & H2 & _ & _ & Hl2).
  exists ix1, ix2. by rewrite Hl1, Hl2.
Qed.

Lemma get_messages_of_empty_thread_asks_again_witness :
  let t := Thread_init rw_manager empty_thread in
  ∃ ix1 ix2,
    get_messages t rw_manager index_empty_thread = (Return [], t, ix1) ∧
    get_messages t rw_manager ix1 = (Return [], t, ix2) ∧
    idx_log ix2 =
      [EvOpen "/mail" READ_ONLY true; EvCreateQuery "thread:3";
       EvSearchThreads "thread:3";
       EvOpen "/mail" READ_ONLY true; EvCreateQuery "thread:3";
       EvSearchThreads "thread:3"].
Proof.
  intros t.
  destruct (get_messages_of_empty_thread_asks_again t rw_manager
              index_empty_thread empty_thread [] eq_refl (λ _, eq_refl)
              eq_refl eq_refl) as (ix1 & ix2 & H1 & H2 & _).
  exists ix1, ix2. split; [exact H1|]. split; [exact H2|].
  vm_compute in H1. injection H1 as <-.
  vm_compute in H2. injection H2 as <-. reflexivity.
Defined.

(** ** A thread that is gone *)

(** X19.  When the search for the thread finds nothing, the methods of a
    thread view that look the thread up again raise [StopIteration] and
    leave the view as it was: [refresh] without argument, and
    [get_messages], [get_toplevel_messages] and [get_replies_to] on a
    view whose mapping is empty. *)
Theorem lookup_of_missing_thread_raises (msg : Message) (self : Thread)
    (dbman : DBManager) (ix : Index) :
  idx_open_fails ix READ_ONLY (idx_log ix) = false →
  idx_threads ix ("thread:" +:+ _id self) = Return [] →
  (refresh None self dbman ix).1 = (Raise StopIteration, self) ∧
  (_messages self = [] →
   (get_messages self dbman ix).1 = (Raise StopIteration, self) ∧
   (get_toplevel_messages self dbman ix).1 = (Raise StopIteration, self) ∧
   (get_replies_to msg self dbman ix).1 = (Raise StopIteration, self)).
Proof.
  intros Ho Ht.
  assert (Hg : _messages self = [] →
          (get_messages self dbman ix).1 = (Raise StopIteration, self)).
  { intros Hm. unfold get_messages, query, Database. rewrite Hm, Ho.
    cbn [dict_empty]. unfold search_threads, create_query.
    cbn [idx_threads with_log]. by rewrite Ht. }
  split.
  - unfold refresh, query, Database. rewrite Ho.
    unfold search_threads, create_query. cbn [idx_threads with_log].
    by rewrite Ht.
  - intros Hm. specialize (Hg Hm). split; [done|].
    unfold get_toplevel_messages, get_replies_to. rewrite Hm.
    cbn [dict_empty].
    destruct (get_messages self dbman ix) as [[r self'] ix'].
    simpl in Hg. by inversion Hg.
Qed.

(** Thread 7 is not in the index. *)
Lemma lookup_of_missing_thread_raises_witness :
  let t := set_tree (refresh_from demo_thread "7") [] [] in
  (refresh None t rw_manager index_ok).1 = (Raise StopIteration, t) ∧
  (get_messages t rw_manager index_ok).1 = (Raise StopIteration, t).
Proof.
  intros t.
  destruct (lookup_of_missing_thread_raises {| get_message_id := "m" |} t
              rw_manager index_ok eq_refl eq_refl) as [H1 H2].
  split; [exact H1|]. exact (proj1 (H2 eq_refl)).
Defined.

(** ** More on the search workers *)

(** The worker after some turns of its loop, none of which met an item
    for which the transform raises. *)
Lemma run_prefix (pid receiver : nat) (f : pyval → result pyval) (n : nat) :
  ∀ (it : list pyval) (os : OS) (sent buf : list pyval) (k : nat),
  n ≤ length (outputs f it) →
  os_procs os !! pid =
    Some {| proc_it := it; proc_pipe := receiver; proc_fun := f;
            proc_state := Running; proc_sent := sent |} →
  os_pipes os !! receiver =
    Some {| pipe_buffer := buf; pipe_senders := k |} →
  os_procs (run n pid os) !! pid =
    Some {| proc_it := drop n it; proc_pipe := receiver; proc_fun := f;
            proc_state := Running;
            proc_sent := sent ++ take n (outputs f it) |} ∧
  os_pipes (run n pid os) !! receiver =
    Some {| pipe_buffer := buf ++ take n (outputs f it);
            pipe_senders := k |}.
Proof.
  induction n as [|n IH]; intros it os sent buf k Hn Hp Hpipe.
  - simpl. by rewrite drop_0, take_0, !app_nil_r.
  - destruct it as [|a it]; [simpl in Hn; lia|].
    simpl in Hn. destruct (f a) as [v|e] eqn:Hv; [|simpl in Hn; lia].
    destruct (run_step_send pid receiver f os a v it sent buf k Hv Hp Hpipe)
      as [H1 H2].
    destruct (IH it _ _ _ k ltac:(simpl in Hn; lia) H1 H2) as [H3 H4].
    cbn [run take drop outputs]. rewrite Hv. cbn [take].
    rewrite <- !app_assoc in H3, H4. done.
Qed.

(** The values of the first turns are those of the transform on the
    first items. *)
Lemma outputs_take (f : pyval → result pyval) (it : list pyval) :
  ∀ n : nat,
  n ≤ length (outputs f it) →
  Forall2 (λ a v, f a = Return v) (take n it) (take n (outputs f it)).
Proof.
  induction it as [|a it IH]; intros n Hn.
  - destruct n; constructor.
  - destruct n as [|n]; [constructor|].
    simpl in Hn. cbn [outputs take].
    destruct (f a) as [v|e] eqn:Hv; [|simpl in Hn; lia].
    cbn [take]. constructor; [done|]. apply IH. simpl in Hn. lia.
Qed.

(** On threads the transform of [get_threads] gives the identifiers. *)
Lemma outputs_get_thread_id (ts : list NThread) :
  outputs get_thread_id (PyThread <$> ts) =
    (λ t, PyStr (nt_thread_id t)) <$> ts.
Proof.
  induction ts as [|t ts IH]; [done|].
  rewrite !fmap_cons. cbn [outputs get_thread_id]. by rewrite IH.
Qed.

(** X20.  [get_threads] on an index that opens and finds the threads
    [ts]: a worker is started and tracked, and once it has run to its
    end the consumer of the returned pipe receives the identifiers of
    the threads of [ts], in the order of the search, and after them the
    end of the stream. *)
Theorem get_threads_delivers_thread_ids (querystring : string)
    (self : DBManager) (ix : Index) (os : OS) (ts : list NThread) :
  idx_open_fails ix READ_ONLY (idx_log ix) = false →
  idx_threads ix querystring = Return ts →
  let receiver := length (os_pipes os) in
  let process := length (os_procs os) in
  ∃ ix' os1,
    get_threads querystring self ix os =
      (Return (receiver, process),
       set_processes self (processes self ++ [process]), ix', os1) ∧
    (recv_all (S (length ts)) receiver
       (run (S (length ts)) process os1)).1 =
      ((λ t, PyStr (nt_thread_id t)) <$> ts, EOFError).
Proof.
  intros Ho Ht receiver process. unfold get_threads, query, Database.
  rewrite Ho. unfold search_threads, create_query.
  cbn [idx_threads with_log]. rewrite Ht. rewrite async_spec.
  eexists _, _. split; [reflexivity|].
  set (os1 := {| os_pipes := _; os_procs := _ |}).
  assert (Hp : os_procs os1 !! process =
               Some {| proc_it := PyThread <$> ts; proc_pipe := receiver;
                       proc_fun := get_thread_id; proc_state := Running;
                       proc_sent := [] |}).
  { subst os1 process. simpl. by rewrite list_lookup_middle. }
  assert (Hpipe : os_pipes os1 !! receiver =
                  Some {| pipe_buffer := []; pipe_senders := 1 |}).
  { subst os1 receiver. simpl. by rewrite list_lookup_middle. }
  destruct (run_completes process receiver get_thread_id (PyThread <$> ts)
              os1 [] [] 1 Hp Hpipe) as [_ H2].
  cbn zeta in H2. rewrite length_fmap in H2. rewrite app_nil_l in H2.
  rewrite outputs_get_thread_id in H2. cbn [Init.Nat.pred] in H2.
  apply recv_all_closed; [rewrite length_fmap; lia|exact H2].
Qed.

(** The search for thread 1. *)
Lemma get_threads_delivers_thread_ids_witness :
  ∃ ix' os1,
    get_threads "thread:1" rw_manager index_ok empty_os =
      (Return (0, 0), set_processes rw_manager [0], ix', os1) ∧
    (recv_all 2 0 (run 2 0 os1)).1 = ([PyStr "1"], EOFError).
Proof.
  destruct (get_threads_delivers_thread_ids "thread:1" rw_manager index_ok
              empty_os [demo_thread] eq_refl eq_refl)
    as (ix' & os1 & H1 & H2).
  exists ix', os1. split; [exact H1|exact H2].
Defined.

(** X21.  A step of a worker touches nothing but the worker itself and
    the pipe it writes to: every other process and every other pipe are
    as before. *)
Theorem run_step_touches_own_pipe_only (pid : nat) (os : OS) (p : Process) :
  os_procs os !! pid = Some p →
  (∀ pid', pid' ≠ pid →
           os_procs (run_step pid os) !! pid' = os_procs os !! pid') ∧
  (∀ j, j ≠ proc_pipe p →
        os_pipes (run_step pid os) !! j = os_pipes os !! j) ∧
  length (os_procs (run_step pid os)) = length (os_procs os) ∧
  length (os_pipes (run_step pid os)) = length (os_pipes os).
Proof.
  intros Hp. unfold run_step. rewrite Hp.
  destruct (proc_state p); [|done|done|done].
  destruct (proc_it p) as [|a it]; [|destruct (proc_fun p a) as [v|e]];
    simpl.
  all: split; [intros pid' Hne; by rewrite list_lookup_alter_ne|].
  all: split; [intros j Hne; by rewrite list_lookup_alter_ne|].
  all: by rewrite !length_alter.
Qed.

(** Two workers: a step of the second leaves the first and its pipe. *)
Lemma run_step_touches_own_pipe_only_witness :
  let os :=
    (async (λ _, Return three_threads) get_thread_id
       (async (λ _, Return three_threads) get_thread_id rw_manager
          empty_os).1.2
       (async (λ _, Return three_threads) get_thread_id rw_manager
          empty_os).2).2 in
  os_procs (run_step 1 os) !! 0 = os_procs os !! 0 ∧
  os_pipes (run_step 1 os) !! 0 = os_pipes os !! 0 ∧
  pipe_buffer <$> os_pipes (run_step 1 os) !! 1 = Some [PyStr "1"].
Proof.
  intros os.
  destruct (os_procs os !! 1) as [p|] eqn:Hp; [|discriminate Hp].
  destruct (run_step_touches_own_pipe_only 1 os p Hp) as (H1 & H2 & _).
  assert (Hpipe : proc_pipe p = 1).
  { vm_compute in Hp. by inversion Hp. }
  split; [apply H1; lia|]. split; [apply H2; lia|]. reflexivity.
Defined.

(** What [terminate] of any process does to a worker and to the pipe it
    writes to: the buffer stays, no sending end is opened, and the worker
    itself, if it was running, is stopped and its sending end closed. *)
Lemma terminate_effect (q pid receiver : nat) (os : OS) (p : Process)
    (buf : list pyval) (n : nat) :
  os_procs os !! pid = Some p →
  proc_pipe p = receiver →
  os_pipes os !! receiver = Some {| pipe_buffer := buf; pipe_senders := n |} →
  ∃ p' n',
    os_procs (terminate q os) !! pid = Some p' ∧
    proc_pipe p' = receiver ∧
    os_pipes (terminate q os) !! receiver =
      Some {| pipe_buffer := buf; pipe_senders := n' |} ∧
    n' ≤ n ∧
    match proc_state p with
    | Running =>
        if decide (q = pid) then proc_state p' = Terminated ∧ n' = pred n
        else proc_state p' = Running
    | st => proc_state p' = st
    end.
Proof.
  intros Hp Hr Hpipe. unfold terminate.
  destruct (os_procs os !! q) as [pq|] eqn:Hq.
  2:{ exists p, n. repeat split; try done.
      destruct (proc_state p); try done.
      case_decide; [|done]. subst q. congruence. }
  destruct (proc_state pq) eqn:Hst.
  2,3,4: exists p, n; repeat split; try done;
       destruct (proc_state p) eqn:Hsp; try done;
       case_decide; [|done]; subst q; congruence.
  simpl. destruct (decide (q = pid)) as [->|Hne].
  - assert (pq = p) as -> by congruence.
    rewrite Hst, Hr. eexists _, _.
    rewrite !list_lookup_alter_eq, Hp, Hpipe. simpl.
    repeat split; try done. cbn [pipe_senders]. lia.
  - rewrite list_lookup_alter_ne by done.
    destruct (decide (proc_pipe pq = receiver)) as [->|Hnp].
    + exists p, (pred n). rewrite list_lookup_alter_eq, Hpipe. simpl.
      repeat split; try done; [cbn [pipe_senders]; lia|].
      by destruct (proc_state p).
    + exists p, n. rewrite list_lookup_alter_ne by done.
      repeat split; try done. by destruct (proc_state p).
Qed.

Lemma terminate_all_closes (pid receiver : nat) (buf : list pyval)
    (ps : list nat) :
  ∀ (os : OS) (p : Process) (n : nat),
  os_procs os !! pid = Some p →
  proc_pipe p = receiver →
  os_pipes os !! receiver = Some {| pipe_buffer := buf; pipe_senders := n |} →
  n ≤ 1 →
  (proc_state p = Running ∧ pid ∈ ps) ∨ (proc_state p = Terminated ∧ n = 0) →
  let os' := foldl (λ os q, terminate q os) os ps in
  state_of pid os' = Some Terminated ∧
  os_pipes os' !! receiver = Some {| pipe_buffer := buf; pipe_senders := 0 |}.
Proof.
  induction ps as [|q ps IH]; intros os p n Hp Hr Hpipe Hn Hcase.
  - destruct Hcase as [[_ Hin]|[Hst ->]]; [by apply elem_of_nil in Hin|].
    simpl. unfold state_of. by rewrite Hp, Hpipe; simpl; rewrite Hst.
  - cbn [foldl].
    destruct (terminate_effect q pid receiver os p buf n Hp Hr Hpipe)
      as (p' & n' & Hp' & Hr' & Hpipe' & Hn' & Hst').
    apply (IH _ p' n' Hp' Hr' Hpipe'); [lia|].
    destruct Hcase as [[Hst Hin]|[Hst ->]]; rewrite Hst in Hst'.
    + destruct (decide (q = pid)) as [->|Hne].
      * right. destruct Hst' as [-> ->]. split; [done|lia].
      * left. split; [done|].
        apply elem_of_cons in Hin as [->|Hin]; done.
    + right. split; [done|lia].
Qed.

(** X22.  A worker killed in the middle of its work: after [async], [n]
    turns of the loop of the worker, in none of which the transform
    raised, and then [kill_search_processes], the worker is terminated
    and does nothing more, however often it is stepped, and the consumer
    receives the values sent in these [n] turns, the values of the
    transform on the first [n] items, in their order, and then the end
    of the stream, with no error and without waiting for a value that
    will not come.  For a transform that returns for every item,
    [outputs f it] has a value for each item of [it]. *)
Theorem kill_in_mid_stream (it : list pyval) (f : pyval → result pyval)
    (n : nat) (self : DBManager) (os : OS) :
  n ≤ length (outputs f it) →
  let receiver := length (os_pipes os) in
  let process := length (os_procs os) in
  let '(_, self1, os1) := async (λ _, Return it) f self os in
  let '(self2, os2) := kill_search_processes self1 (run n process os1) in
  processes self2 = [] ∧
  state_of process os2 = Some Terminated ∧
  (∀ k, run k process os2 = os2) ∧
  (recv_all (S n) receiver os2).1 = (take n (outputs f it), EOFError) ∧
  Forall2 (λ a v, f a = Return v) (take n it) (take n (outputs f it)) ∧
  (∀ g : pyval → pyval, f = (λ a, Return (g a)) →
     n ≤ length it ∧ take n (outputs f it) = g <$> take n it).
Proof.
  intros Hn receiver process. rewrite async_spec.
  set (os1 := {| os_pipes := _; os_procs := _ |}).
  assert (Hp : os_procs os1 !! process =
               Some {| proc_it := it; proc_pipe := receiver; proc_fun := f;
                       proc_state := Running; proc_sent := [] |}).
  { subst os1 process. simpl. by rewrite list_lookup_middle. }
  assert (Hpipe : os_pipes os1 !! receiver =
                  Some {| pipe_buffer := []; pipe_senders := 1 |}).
  { subst os1 receiver. simpl. by rewrite list_lookup_middle. }
  destruct (run_prefix process receiver f n it os1 [] [] 1 Hn Hp Hpipe)
    as [H1 H2].
  rewrite app_nil_l in H1, H2.
  unfold kill_search_processes. cbn [processes set_processes].
  destruct (terminate_all_closes process receiver (take n (outputs f it))
              (processes self ++ [process]) _ _ 1 H1 eq_refl H2 (le_n 1))
    as [Hst Hclosed].
  { left. split; [done|]. apply elem_of_app. right. apply list_elem_of_here. }
  cbn zeta in Hst, Hclosed.
  split; [done|]. split; [exact Hst|]. split; [|split; [|split]].
  - intros k. induction k as [|k IHk]; [done|]. cbn [run].
    assert (Hstep : ∀ os0, state_of process os0 = Some Terminated →
                           run_step process os0 = os0).
    { intros os0. unfold state_of, run_step.
      destruct (os_procs os0 !! process) as [p0|]; [|done].
      simpl. by intros [= ->]. }
    by rewrite Hstep.
  - apply recv_all_closed; [rewrite length_take; lia|exact Hclosed].
  - by apply outputs_take.
  - intros g ->. rewrite outputs_total in Hn |- *.
    rewrite length_fmap in Hn. split; [done|]. by rewrite fmap_take.
Qed.

(** Killed after the first of three values. *)
Lemma kill_in_mid_stream_witness :
  let '(_, self1, os1) :=
    async (λ _, Return three_threads) get_thread_id rw_manager empty_os in
  let '(self2, os2) := kill_search_processes self1 (run 1 0 os1) in
  state_of 0 os2 = Some Terminated ∧
  (recv_all 2 0 os2).1 = ([PyStr "1"], EOFError).
Proof.
  pose proof (kill_in_mid_stream three_threads get_thread_id 1 rw_manager
                empty_os ltac:(simpl; lia)) as H.
  cbn zeta in H.
  destruct (async _ _ _ _) as [[r self1] os1].
  destruct (kill_search_processes _ _) as [self2 os2].
  destruct H as (_ & H2 & _ & H4 & _). split; [exact H2|exact H4].
Defined.

(** ** What the methods never do *)

Lemma flush_leaves_suffix_frame (fuel : nat) (self self' : DBManager)
    (ix ix' : Index) (r : result unit) :
  flush fuel self ix = Some (r, self', ix') →
  ro self' = ro self ∧ path self' = path self.
Proof.
  unfold flush. destruct (ro self) eqn:Hro; [by intros [= _ <- _]|].
  destruct (writequeue self); [by intros [= _ <- _]|].
  destruct (Database _ _ _) as [[[]|e] db].
  - destruct (flush_loop _ _ _) as [[[r' q'] d']|]; [|done].
    by intros [= _ <- _].
  - destruct (is_NotmuchError e); by intros [= _ <- _].
Qed.

(** X23.  No step of the system changes the tag store of the index but a
    [flush] on a manager that is not read-only and whose queue is not
    empty: enqueueing, the lookups, the thread methods, the workers and
    their consumers, and a [flush] that has nothing to do or is refused,
    all leave the tags of every message as they were. *)
Theorem only_flush_changes_tags (a : action) (s s' : System) :
  step a s = Some s' →
  match a with
  | CallFlush _ =>
      ro (sys_dbman s) = true ∨ writequeue (sys_dbman s) = []
  | _ => True
  end →
  idx_tags (sys_index s') = idx_tags (sys_index s).
Proof.
  destruct s as [m ix os]. destruct a; cbn [step sys_dbman sys_index sys_os].
  - intros H Hcase. unfold flush in H.
    destruct Hcase as [Hro|Hq].
    + rewrite Hro in H. by inversion H.
    + rewrite Hq in H. destruct (ro m); by inversion H.
  - destruct (tag _ _ _ _ _). by intros [= <-].
  - destruct (untag _ _ _ _). by intros [= <-].
  - unfold query, Database. destruct (idx_open_fails _ _ _); by intros [= <-].
  - unfold get_thread, query, Database.
    destruct (idx_open_fails _ _ _); [by intros [= <-]|].
    unfold search_threads, create_query. simpl.
    destruct (idx_threads ix _) as [[|t ts]|e]; by intros [= <-].
  - destruct (async _ _ _ _) as [[? ?] ?]. by intros [= <-].
  - unfold get_threads, query, Database.
    destruct (idx_open_fails _ _ _); [by intros [= <-]|].
    unfold search_threads, create_query. simpl.
    destruct (async _ _ _ _) as [[? ?] ?]. by intros [= <-].
  - destruct (kill_search_processes _ _). by intros [= <-].
  - destruct (add_tags _ _ _ _) as [[? ?] ?]. by intros [= <-].
  - destruct (remove_tags _ _ _ _) as [[? ?] ?]. by intros [= <-].
  - destruct (set_tags _ _ _ _) as [[? ?] ?]. by intros [= <-].
  - unfold refresh, query, Database.
    destruct (idx_open_fails _ _ _); [by intros [= <-]|].
    unfold search_threads, create_query. simpl.
    destruct (idx_threads ix _) as [[|t ts]|e]; by intros [= <-].
  - unfold get_messages. destruct (dict_empty _); [|by intros [= <-]].
    unfold query, Database.
    destruct (idx_open_fails _ _ _); [by intros [= <-]|].
    unfold search_threads, create_query. simpl.
    destruct (idx_threads ix _) as [[|t ts]|e]; try by intros [= <-].
    simpl. destruct (accumulate_toplevel _ _ _) as [[[]|e] [acc top]];
      by intros [= <-].
  - by intros [= <-].
  - destruct (recv _ _). by intros [= <-].
Qed.

(** Enqueueing a command does not touch the tags. *)
Lemma only_flush_changes_tags_witness :
  ∃ s',
    step (CallTag demo_config "thread:1" (TagList ["a"]) false) sys_start =
      Some s' ∧
    writequeue (sys_dbman s') = [("tag", "thread:1", TagList ["a"], true)] ∧
    idx_tags (sys_index s') = demo_store.
Proof.
  eexists. split; [reflexivity|]. split; [reflexivity|].
  exact (only_flush_changes_tags
           (CallTag demo_config "thread:1" (TagList ["a"]) false)
           sys_start _ eq_refl I).
Defined.

(** X24.  On a read-only manager no step changes the queue: [tag],
    [untag] and the tag methods of a thread either raise or do nothing,
    and [flush] raises; and no step at all changes the read-only flag or
    the path of a manager. *)
Theorem read_only_manager_queues_nothing (a : action) (s s' : System) :
  step a s = Some s' →
  ro (sys_dbman s') = ro (sys_dbman s) ∧
  path (sys_dbman s') = path (sys_dbman s) ∧
  (ro (sys_dbman s) = true →
   writequeue (sys_dbman s') = writequeue (sys_dbman s)).
Proof.
  destruct s as [m ix os]. destruct a; cbn [step sys_dbman sys_index sys_os].
  - destruct (flush fuel m ix) as [[[r m'] ix']|] eqn:E; [|done].
    intros [= <-]. simpl.
    destruct (flush_leaves_suffix_frame _ _ _ _ _ _ E) as (Hro & Hpath).
    split; [done|]. split; [done|]. intros Hr. unfold flush in E.
    rewrite Hr in E. by inversion E.
  - unfold tag. destruct (ro m) eqn:Hro, remove_rest; intros [= <-]; done.
  - unfold untag. destruct (ro m) eqn:Hro; intros [= <-]; done.
  - destruct (query _ _ _). by intros [= <-].
  - destruct (get_thread _ _ _). by intros [= <-].
  - rewrite async_spec. destruct (cbl ()); by intros [= <-].
  - unfold get_threads. destruct (query _ _ _) as [[q|e] ix1];
      [|by intros [= <-]].
    destruct (search_threads q ix1) as [[ts|e] ix2]; rewrite async_spec;
      by intros [= <-].
  - unfold kill_search_processes. by intros [= <-].
  - unfold add_tags, tag. destruct (set_truthy _), (ro m) eqn:Hro;
      intros [= <-]; done.
  - unfold remove_tags, untag. destruct (set_truthy _), (ro m) eqn:Hro;
      intros [= <-]; done.
  - unfold set_tags, tag. destruct (py_ne _ _), (ro m) eqn:Hro;
      intros [= <-]; done.
  - destruct (refresh _ _ _ _) as [[? ?] ?]. by intros [= <-].
  - destruct (get_messages _ _ _) as [[? ?] ?]. by intros [= <-].
  - by intros [= <-].
  - destruct (recv _ _). by intros [= <-].
Qed.

(** A thread of a read-only manager: [add_tags] with a new tag raises and
    the queue stays empty. *)
Lemma read_only_manager_queues_nothing_witness :
  let s := {| sys_dbman := ro_manager; sys_index := index_ok;
              sys_os := empty_os |} in
  ∃ s',
    step (CallAddTags demo_config (TagList ["new"]) thread_xy) s = Some s' ∧
    writequeue (sys_dbman s') = [].
Proof.
  intros s. eexists. split; [reflexivity|].
  exact (proj2 (proj2 (read_only_manager_queues_nothing
                         (CallAddTags demo_config (TagList ["new"]) thread_xy)
                         s _ eq_refl)) eq_refl).
Defined.
